(** * MapReduce: worker agent, intermediate store and scheduler

    A shallow embedding of the Go sources of the MapReduce framework
    (package [mapreduce], file worker.go, and the PageRank driver
    pagerank/main.go) together with the properties of its specification.

    Conventions of the embedding.
    - Go's [uint] is the 64-bit unsigned integer of the usual targets; a
      value of that type is a [Z] in [0, 2^64).  [uint32] is a [Z] in
      [0, 2^32), and the conversion [uint32(x)] is written out as
      [x mod 2^32].
    - A file written through [json.NewEncoder] is a sequence of
      self-delimited records.  One call of [Encode] appends one record; one
      call of [Decode] consumes one record and either yields a [KeyValue] or
      returns an error, which it also does at the end of the stream.  The
      record [Encoded kv] is the one [Encode] writes for [kv]; [Decode]
      yields [kv] from it when the key and the value are valid UTF-8 (for
      other text encoding/json writes U+FFFD in place of the bytes that are
      not valid, so properties that read a written record back are stated
      for valid text).
    - The file system is a finite map from file names to record streams;
      the text files that the map tasks read are kept in a second finite
      map from names to contents.  Creating a file, or opening it to
      append, succeeds, and so does the allocation of a slice by [make]:
      the memory and the disk of the machine are no bounds of the model.
    - A Go panic (also the one raised by [checkErr]) is an [outcome] of its
      own, so a task either returns or aborts. *)

From Stdlib Require Import ZArith Lia Ascii.
From stdpp Require Import base numbers list strings gmap fin_maps pretty sorting.

Open Scope Z_scope.

(** ** Data model *)

(** [type KeyValue struct { Key string; Value string }] *)
Record KeyValue : Type := mkKeyValue { Key : string; Value : string }.

Global Instance KeyValue_eq_dec : EqDecision KeyValue.
Proof. solve_decision. Defined.

(** One record of an intermediate or output file. *)
Inductive record : Type :=
  | Encoded (kv : KeyValue)   (* what [enc.Encode(kv)] writes; [Decode] yields [kv] *)
  | Garbled.                  (* bytes on which [Decode] returns an error *)

Global Instance record_eq_dec : EqDecision record.
Proof. solve_decision. Defined.

Abbreviation file := (list record).
Abbreviation FS := (gmap string (list record)).

(** Why a task aborted. *)
Inductive panic : Type :=
  | ReadError          (* checkErr after ioutil.ReadFile *)
  | OpenError          (* checkErr after os.Open *)
  | DivideByZero       (* integer divide by zero in [%] *)
  | IndexOutOfRange.   (* slice index out of range *)

Inductive outcome (A : Type) : Type :=
  | Done (a : A)
  | Panic (why : panic).
Arguments Done {A} a.
Arguments Panic {A} why.

(** Sequencing: a panic ends the task at once. *)
Global Instance outcome_ret : MRet outcome := fun A a => Done a.
Global Instance outcome_bind : MBind outcome := fun A B k o =>
  match o with
  | Done a => k a
  | Panic why => Panic why
  end.

Definition returns {A} (o : outcome A) : Prop :=
  match o with Done _ => True | Panic _ => False end.

(** Machine integers. *)
Definition uint_bits : Z := 64.
Definition is_uint (x : Z) : Prop := 0 <= x < 2 ^ uint_bits.
Definition is_uint32 (x : Z) : Prop := 0 <= x < 2 ^ 32.
(** The conversion [uint32(x)] of a [uint]. *)
Definition to_uint32 (x : Z) : Z := x mod 2 ^ 32.

(** ** Intermediate store: file names *)

(** [strconv.Itoa]: decimal digits, with a leading minus sign for a
    negative number. *)
Definition Itoa (n : Z) : string := pretty n.

Section Naming.

(** The constant [mr.DataOutputDir] is declared in a file of the package
    that is not part of the sources at hand; the names are studied for any
    value of it. *)
Variable DataOutputDir : string.

(** pagerank/main.go, [reduceInputName], "a copy of the private method in
    the mr package":
    [mr.DataOutputDir + "mr." + jobName + "-" + strconv.Itoa(mapperNum)
     + "-" + strconv.Itoa(reducerNum)]. *)
Definition reduceInputName (jobName : string) (mapperNum reducerNum : Z) : string :=
  ((((DataOutputDir +:+ "mr.") +:+ jobName) +:+ "-") +:+ Itoa mapperNum)
    +:+ "-" +:+ Itoa reducerNum.

End Naming.

(** Shape of a decimal numeral, used to read a file name back. *)
Definition is_digit (c : ascii) : Prop :=
  c ∈ ["0"; "1"; "2"; "3"; "4"; "5"; "6"; "7"; "8"; "9"]%char.

Fixpoint all_digits (s : string) : Prop :=
  match s with
  | EmptyString => True
  | String c s' => is_digit c /\ all_digits s'
  end.

(** A numeral is an optional sign followed by a non-empty run of digits. *)
Definition numeral (s : string) : Prop :=
  (all_digits s /\ s <> "") \/
  (exists d, s = String "-" d /\ all_digits d /\ d <> "").

(** ** Partitioning hash *)

(** Modelled from the spec: the function [ihash] of the package is not among
    the sources at hand; the specification asks for "any fixed,
    deterministic, reasonably-uniform string hash shared by all workers in
    the job (e.g., a 32-bit non-cryptographic hash)".  The worker is
    modelled for any such function; the 32-bit FNV-1a hash below is the
    instance used to run the model. *)
Definition fnv32a (s : string) : Z :=
  fold_left
    (fun h c => (Z.lxor h (Z.of_N (N_of_ascii c)) * 16777619) mod 2 ^ 32)
    (String.list_ascii_of_string s) 2166136261.

(** ** Worker agent (worker.go) *)

(** [type Worker struct].  The listener is represented by whether it is
    open; the channel [done] carries no data of its own. *)
Record Worker : Type := mkWorker {
  jobName : string;
  mapF : string -> string -> list KeyValue;
  reduceF : string -> list string -> string;
  rpcListener : bool;
  active : Z;
  address : string;
  mapsDone : Z;
  reducesDone : Z
}.

(** [NewWorker]; the address produced by [genWorkerAddress] is an input. *)
Definition NewWorker (job : string) (mapF : string -> string -> list KeyValue)
    (reduceF : string -> list string -> string) (addr : string) : Worker :=
  {| jobName := job; mapF := mapF; reduceF := reduceF; rpcListener := false;
     active := 0; address := addr; mapsDone := 0; reducesDone := 0 |}.

Definition IsActive (w : Worker) : bool := bool_decide (active w = 1).

Section WorkerTasks.

Variable DataOutputDir : string.
(** [ReduceOutputName] is declared in a file that is not at hand. *)
Variable ReduceOutputName : string -> Z -> string.
Variable ihash : string -> Z.

(** *** DoMap *)

(** [(ihash(kv.Key)) % uint32(numReducers)] *)
Definition reducerNumOf (key : string) (numReducers : Z) : outcome Z :=
  if decide (to_uint32 numReducers = 0) then Panic DivideByZero
  else Done (ihash key mod to_uint32 numReducers).

(** The loop [for _, kv := range kvs] over the slice [partitions]. *)
Fixpoint partitionKVs (kvs : list KeyValue) (numReducers : Z)
    (partitions : list (list KeyValue)) : outcome (list (list KeyValue)) :=
  match kvs with
  | [] => Done partitions
  | kv :: kvs' =>
      reducerNum ← reducerNumOf (Key kv) numReducers;
      match partitions !! Z.to_nat reducerNum with
      | Some p =>
          partitionKVs kvs' numReducers
            (<[Z.to_nat reducerNum := p ++ [kv]]> partitions)
      | None => Panic IndexOutOfRange
      end
  end.

(** [os.OpenFile(name, O_RDWR|O_CREATE|O_APPEND)] followed by one [Encode]
    for each pair: the file is created when absent and the records are
    added at its end. *)
Definition appendRecords (name : string) (kvs : list KeyValue) (fs : FS) : FS :=
  <[name := default [] (fs !! name) ++ (Encoded <$> kvs)]> fs.

(** The loop [for reducerNum, xPartition := range partitions]. *)
Fixpoint savePartitions (job : string) (mapperNum reducerNum : Z)
    (partitions : list (list KeyValue)) (fs : FS) : FS :=
  match partitions with
  | [] => fs
  | xPartition :: rest =>
      savePartitions job mapperNum (reducerNum + 1) rest
        (appendRecords (reduceInputName DataOutputDir job mapperNum reducerNum)
           xPartition fs)
  end.

(** [DoMap].  The slice [partitions] has one entry for each of the
    [numReducers] reducers; its allocation by [make] is taken to succeed. *)
Definition DoMap (w : Worker) (inputs : gmap string string)
    (inputFileName : string) (mapperNum numReducers : Z) (fs : FS) : outcome FS :=
  match inputs !! inputFileName with
  | None => Panic ReadError
  | Some inputFileContent =>
      let kvs := mapF w inputFileName inputFileContent in
      partitions ← partitionKVs kvs numReducers
                     (replicate (Z.to_nat numReducers) []);
      mret (savePartitions (jobName w) mapperNum 0 partitions fs)
  end.

(** *** DoReduce *)

(** The loop [for err := decoder.Decode(&kv); err == nil; ...]: it ends at
    the first record on which [Decode] returns an error, be it the end of
    the stream or a record that does not decode. *)
Fixpoint decodeLoop (recs : file) (kvMap : gmap string (list string))
    : gmap string (list string) :=
  match recs with
  | Encoded kv :: rest =>
      decodeLoop rest
        (<[Key kv := default [] (kvMap !! Key kv) ++ [Value kv]]> kvMap)
  | _ => kvMap
  end.

(** The loop [for mapNumber := uint(0); mapNumber < numMappers; mapNumber++],
    with [remaining] iterations to go. *)
Fixpoint readMappers (job : string) (reducerNum mapNumber : Z) (remaining : nat)
    (fs : FS) (kvMap : gmap string (list string))
    : outcome (gmap string (list string)) :=
  match remaining with
  | O => Done kvMap
  | S remaining' =>
      match fs !! reduceInputName DataOutputDir job mapNumber reducerNum with
      | None => Panic OpenError
      | Some recs =>
          readMappers job reducerNum (mapNumber + 1) remaining' fs
            (decodeLoop recs kvMap)
      end
  end.

(** What one run of [DoReduce] leaves: the calls of the reduce function, in
    the order they were made, and the file system. *)
Record reduced : Type := mkReduced {
  reduceCalls : list (string * list string);
  reducedFS : FS
}.

Section RangeOrder.

(** The order in which [for key, vals := range kvMap] visits the map is
    chosen by the Go runtime; it is an input of this model. *)
Variable rangeMap : gmap string (list string) -> list (string * list string).

Definition DoReduce (w : Worker) (reducerNum numMappers : Z) (fs : FS)
    : outcome reduced :=
  kvMap ← readMappers (jobName w) reducerNum 0 (Z.to_nat numMappers) fs ∅;
  let visited := rangeMap kvMap in
  let opKvList :=
    (fun kvs : string * list string =>
       mkKeyValue (kvs.1) (reduceF w (kvs.1) (kvs.2))) <$> visited in
  mret (mkReduced visited
          (<[ReduceOutputName (jobName w) reducerNum := Encoded <$> opKvList]> fs)).

End RangeOrder.

End WorkerTasks.

(** A legal visiting order lists every entry of the map once. *)
Definition legalRange (rangeMap : gmap string (list string) -> list (string * list string)) : Prop :=
  forall m, rangeMap m ≡ₚ map_to_list m.

(** *** Shutdown and registration *)

(** What a worker does to the world, in order. *)
Inductive event : Type :=
  | CallMaster (method : string) (addr : string)
  | Sleep (milliseconds : Z)
  | Println (line : string)
  | CloseListener.

Global Instance event_eq_dec : EqDecision event.
Proof. solve_decision. Defined.

Definition setInactiveClosed (w : Worker) : Worker :=
  {| jobName := jobName w; mapF := mapF w; reduceF := reduceF w;
     rpcListener := false; active := 0; address := address w;
     mapsDone := mapsDone w; reducesDone := reducesDone w |}.

(** [Shutdown], for a worker whose listener [Start] has set: the worker is
    marked inactive and the listener is closed (closing it again is an
    error that the code ignores).  A worker that was never started has no
    listener to close; its shutdown is not what this function describes. *)
Definition Shutdown (w : Worker) : Worker * list event :=
  (setInactiveClosed w, [Println "SHUTDOWN"; CloseListener]).

(** The loop [for i := 0; i < 40 && !ok; i++] with [remaining = 40 - i].
    [callMaster i] is the answer that the [i]-th call of the master gets. *)
Fixpoint registerLoop (callMaster : Z -> bool) (addr : string) (i : Z)
    (remaining : nat) (ok : bool) : bool * list event :=
  match remaining with
  | O => (ok, [])
  | S remaining' =>
      if ok then (ok, [])
      else
        let ok' := callMaster i in
        let now :=
          CallMaster "Register" addr ::
          (if ok' then []
           else Sleep 250 ::
                (if decide (i mod 10 = 0)
                 then [Println "Retrying registration attempt..."] else [])) in
        let later := registerLoop callMaster addr (i + 1) remaining' ok' in
        (later.1, now ++ later.2)
  end.

Definition RegisterWithServer (callMaster : Z -> bool) (w : Worker)
    : Worker * list event :=
  let loop := registerLoop callMaster (address w) 0 40 false in
  if loop.1 then (w, loop.2 ++ [Println "Registered successfully!"])
  else
    let down := Shutdown w in
    (down.1, loop.2 ++ [Println "Failed to register. Shutting down."] ++ down.2).

(** One round of the loop that fails: the call, the pause, and on every
    tenth round a line of output. *)
Definition failedRound (addr : string) (i : Z) : list event :=
  CallMaster "Register" addr :: Sleep 250 ::
  (if decide (i mod 10 = 0)
   then [Println "Retrying registration attempt..."] else []).

(** The calls of the master among the events, and the pauses between. *)
Definition isCall (e : event) : bool :=
  match e with CallMaster _ _ => true | _ => false end.
Definition isSleep (e : event) : bool :=
  match e with Sleep _ => true | _ => false end.
Definition attempts (tr : list event) : nat := length (filter isCall tr).

(** First index below [n], counted from [i], at which the master answers. *)
Fixpoint firstSuccess (callMaster : Z -> bool) (i : Z) (n : nat) : option Z :=
  match n with
  | O => None
  | S n' => if callMaster i then Some i else firstSuccess callMaster (i + 1) n'
  end.

(** The calls and pauses of a trace, the prints left out. *)
Definition schedule (tr : list event) : list event :=
  filter (fun e => orb (isCall e) (isSleep e)) tr.

(** [k] failed attempts, each followed by its pause. *)
Fixpoint failedRounds (addr : string) (k : nat) : list event :=
  match k with
  | O => []
  | S k' => CallMaster "Register" addr :: Sleep 250 :: failedRounds addr k'
  end.

(** ** Task scheduler (master) *)

(** The master's source file is not among the sources at hand; its
    scheduling algorithm and its merge are modelled from the
    specification. *)

(** Modelled from the spec: the master's file is missing; section 3 gives a
    task the lifecycle "Idle -> InProgress(assignedWorker) -> Completed". *)
Inductive TaskState : Type :=
  | Idle
  | InProgress (assignedWorker : string)
  | Completed.

(** Modelled from the spec: the state of a WorkerHandle, "Idle|Busy|Dead". *)
Inductive WorkerState : Type :=
  | WorkerIdle
  | Busy
  | Dead.

(** Modelled from the spec: a task is a "tagged variant {Map{inputFile,
    mapperIndex}, Reduce{reducerIndex}}"; the input file of a map task is
    the one of its index. *)
Inductive Task : Type :=
  | MapTask (mapperIndex : nat)
  | ReduceTask (reducerIndex : nat).

(** Modelled from the spec: the phases of a job of the missing master,
    "map phase, reduce phase, merge". *)
Inductive Phase : Type :=
  | MapPhase
  | ReducePhase
  | JobDone.

Global Instance TaskState_eq_dec : EqDecision TaskState.
Proof. solve_decision. Defined.
Global Instance WorkerState_eq_dec : EqDecision WorkerState.
Proof. solve_decision. Defined.
Global Instance Task_eq_dec : EqDecision Task.
Proof. solve_decision. Defined.
Global Instance Phase_eq_dec : EqDecision Phase.
Proof. solve_decision. Defined.

(** Modelled from the spec: the state the missing master owns, "the WorkerHandle
    pool and the Task queue", with the state of every task of the job and
    the phase the job is in. *)
Record Scheduler : Type := mkScheduler {
  phase : Phase;
  mapTasks : list TaskState;
  reduceTasks : list TaskState;
  queue : list Task;
  workers : gmap string WorkerState
}.

(** Modelled from the spec: the atomic transitions of the missing master.  The
    specification has the mutations of the shared state serialized, so a run
    is a sequence of these. *)
Inductive action : Type :=
  | Register (workerAddress : string)
  | Dispatch (workerAddress : string)
  | RpcSuccess (t : Task)
  | RpcFailure (t : Task)
  | NextPhase.

Definition taskState (s : Scheduler) (t : Task) : option TaskState :=
  match t with
  | MapTask i => mapTasks s !! i
  | ReduceTask i => reduceTasks s !! i
  end.

Definition setTask (s : Scheduler) (t : Task) (st : TaskState) : Scheduler :=
  match t with
  | MapTask i =>
      mkScheduler (phase s) (<[i := st]> (mapTasks s)) (reduceTasks s)
        (queue s) (workers s)
  | ReduceTask i =>
      mkScheduler (phase s) (mapTasks s) (<[i := st]> (reduceTasks s))
        (queue s) (workers s)
  end.

Definition setWorker (s : Scheduler) (addr : string) (ws : WorkerState) : Scheduler :=
  mkScheduler (phase s) (mapTasks s) (reduceTasks s) (queue s)
    (<[addr := ws]> (workers s)).

Definition setQueue (s : Scheduler) (q : list Task) : Scheduler :=
  mkScheduler (phase s) (mapTasks s) (reduceTasks s) q (workers s).

Definition allCompleted (ts : list TaskState) : bool :=
  forallb (fun st => bool_decide (st = Completed)) ts.

(** Modelled from the spec: the start state of the missing master,
    "maintain a work queue seeded with all Idle tasks
    for the current phase". *)
Definition initScheduler (numMappers numReducers : nat) : Scheduler :=
  mkScheduler MapPhase (replicate numMappers Idle) (replicate numReducers Idle)
    (MapTask <$> seq 0 numMappers) ∅.

(** Modelled from the spec: the transition function of the missing master
    (section 4.1): registration puts the worker in the
    pool as Idle; an Idle worker pops a task, which becomes InProgress while
    the worker becomes Busy and the RPC is issued; on success the task is
    Completed and the worker Idle again; on failure the worker is Dead and
    the task, Idle again, goes back into the queue; a phase ends when every
    task of it is Completed, and only then is the queue seeded with the
    tasks of the next phase. *)
Definition step (s : Scheduler) (a : action) : option Scheduler :=
  match a with
  | Register addr => Some (setWorker s addr WorkerIdle)
  | Dispatch addr =>
      match workers s !! addr, queue s with
      | Some WorkerIdle, t :: q =>
          match taskState s t with
          | Some Idle =>
              Some (setWorker (setTask (setQueue s q) t (InProgress addr)) addr Busy)
          | _ => None
          end
      | _, _ => None
      end
  | RpcSuccess t =>
      match taskState s t with
      | Some (InProgress addr) =>
          Some (setWorker (setTask s t Completed) addr WorkerIdle)
      | _ => None
      end
  | RpcFailure t =>
      match taskState s t with
      | Some (InProgress addr) =>
          Some (setQueue (setWorker (setTask s t Idle) addr Dead) (queue s ++ [t]))
      | _ => None
      end
  | NextPhase =>
      match phase s with
      | MapPhase =>
          if allCompleted (mapTasks s)
          then Some (mkScheduler ReducePhase (mapTasks s) (reduceTasks s)
                       (ReduceTask <$> seq 0 (length (reduceTasks s))) (workers s))
          else None
      | ReducePhase =>
          if allCompleted (reduceTasks s)
          then Some (mkScheduler JobDone (mapTasks s) (reduceTasks s) [] (workers s))
          else None
      | JobDone => None
      end
  end.

(** Modelled from the spec: a run of the missing master, its transitions
    taken one after the other. *)
Fixpoint run (s : Scheduler) (acts : list action) : option Scheduler :=
  match acts with
  | [] => Some s
  | a :: acts' =>
      match step s a with
      | Some s' => run s' acts'
      | None => None
      end
  end.

(** Modelled from the spec: the task whose RPC the action [a] of the
    missing master sends out in state [s], if any ("pop a task and dispatch
    it ...: issue the RPC call"). *)
Definition rpcDispatched (s : Scheduler) (a : action) : option Task :=
  match a, step s a with
  | Dispatch _, Some _ => head (queue s)
  | _, _ => None
  end.

Definition isReduceTask (t : Task) : bool :=
  match t with ReduceTask _ => true | MapTask _ => false end.
Definition isMapTask (t : Task) : bool :=
  match t with MapTask _ => true | ReduceTask _ => false end.

(** *** Merge *)

Definition pairOf (r : record) : option KeyValue :=
  match r with Encoded kv => Some kv | Garbled => None end.

(** Order of the merged file: keys compared byte by byte. *)
Definition keyLe (a b : KeyValue) : Prop := String.le (Key a) (Key b).

Global Instance keyLe_dec : RelDecision keyLe.
Proof. intros a b. unfold keyLe. apply _. Defined.

Section Merge.

Variable ReduceOutputName : string -> Z -> string.
(** Name of the merged file of a job; declared in the master's file. *)
Variable mergeName : string -> string.

(** Modelled from the spec: the reading loop of the missing [merge], which
    "reads every reducer's output file" and "fails fast" when one is not
    there. *)
Fixpoint readOutputs (job : string) (reducerNum : Z) (remaining : nat) (fs : FS)
    : outcome (list KeyValue) :=
  match remaining with
  | O => Done []
  | S remaining' =>
      match fs !! ReduceOutputName job reducerNum with
      | None => Panic OpenError
      | Some recs =>
          rest ← readOutputs job (reducerNum + 1) remaining' fs;
          mret (omap pairOf recs ++ rest)
      end
  end.

(** Modelled from the spec: the missing [merge] of the master, which
    "combines all (key, value) pairs into one file sorted by key ascending
    (byte-wise string order)", with "exactly one entry per key", "and
    returns its path".  The pairs are gathered in a dictionary by key, so
    that a key has one entry. *)
Definition merge (job : string) (numReducers : Z) (fs : FS) : outcome (string * FS) :=
  kvs ← readOutputs job 0 (Z.to_nat numReducers) fs;
  let combined : gmap string string :=
    list_to_map ((fun kv => (Key kv, Value kv)) <$> kvs) in
  let entries :=
    merge_sort keyLe ((fun p : string * string => mkKeyValue p.1 p.2)
                        <$> map_to_list combined) in
  mret (mergeName job, <[mergeName job := Encoded <$> entries]> fs).

End Merge.

(** ** Notions used to state the properties *)

Section Emitted.

Variable ihash : string -> Z.

(** The entry of the slice [partitions] a pair is put in. *)
Definition slotOf (numReducers : Z) (kv : KeyValue) : nat :=
  Z.to_nat (ihash (Key kv) mod to_uint32 numReducers).

(** The pairs that [DoMap] adds to the file of reducer [r], in the order
    the map function emitted them. *)
Definition emittedFor (numReducers : Z) (kvs : list KeyValue) (r : Z) : list KeyValue :=
  filter (fun kv => ihash (Key kv) mod to_uint32 numReducers = r) kvs.

End Emitted.

(** The pairs of the records of a stream up to the first record that does
    not decode. *)
Fixpoint decodedPrefix (recs : file) : list KeyValue :=
  match recs with
  | Encoded kv :: rest => kv :: decodedPrefix rest
  | _ => []
  end.

Definition isEncoded (r : record) : Prop :=
  match r with Encoded _ => True | Garbled => False end.

(** The values of a key among pairs, in the order of the pairs. *)
Definition valuesOf (key : string) (kvs : list KeyValue) : list string :=
  Value <$> filter (fun kv => Key kv = key) kvs.

(** A map entry after more values of its key came in. *)
Definition addValues (o : option (list string)) (vs : list string)
    : option (list string) :=
  match vs with
  | [] => o
  | _ => Some (default [] o ++ vs)
  end.

(** The pair written for a call of the reduce function. *)
Definition reducedPair (w : Worker) (call : string * list string) : KeyValue :=
  mkKeyValue (call.1) (reduceF w (call.1) (call.2)).

Section ReadOrder.

Variable DataOutputDir : string.

(** The pairs that the reading loops of [DoReduce] take in, in the order
    they are read: file after file from mapper [mapNumber] on, each file up
    to its first record that does not decode. *)
Fixpoint pairsRead (job : string) (reducerNum mapNumber : Z) (remaining : nat)
    (fs : FS) : list KeyValue :=
  match remaining with
  | O => []
  | S remaining' =>
      decodedPrefix (default [] (fs !! reduceInputName DataOutputDir job mapNumber reducerNum))
      ++ pairsRead job reducerNum (mapNumber + 1) remaining' fs
  end.

(** Every pair held by the partition files of a reducer, file after file. *)
Fixpoint allPairs (job : string) (reducerNum mapNumber : Z) (remaining : nat)
    (fs : FS) : list KeyValue :=
  match remaining with
  | O => []
  | S remaining' =>
      omap pairOf (default [] (fs !! reduceInputName DataOutputDir job mapNumber reducerNum))
      ++ allPairs job reducerNum (mapNumber + 1) remaining' fs
  end.

End ReadOrder.

(** The runtime's two simplest visiting orders. *)
Definition rangeAscending (m : gmap string (list string)) : list (string * list string) :=
  map_to_list m.
Definition rangeDescending (m : gmap string (list string)) : list (string * list string) :=
  reverse (map_to_list m).

(** The barrier, as a property of a state of the scheduler: while the job
    is in its map phase every reduce task is Idle and only map tasks wait
    in the queue; afterwards every map task is Completed and only reduce
    tasks wait in the queue. *)
Definition barrier (s : Scheduler) : Prop :=
  (phase s = MapPhase ->
     Forall (fun st => st = Idle) (reduceTasks s) /\
     Forall (fun t => isMapTask t = true) (queue s)) /\
  (phase s <> MapPhase ->
     Forall (fun st => st = Completed) (mapTasks s) /\
     Forall (fun t => isReduceTask t = true) (queue s)).

(** The pair [kv] is a record of the output file of some reducer. *)
Definition inOutputs (ReduceOutputName : string -> Z -> string) (job : string)
    (numReducers : Z) (fs : FS) (kv : KeyValue) : Prop :=
  exists r recs,
    0 <= r < numReducers /\ fs !! ReduceOutputName job r = Some recs /\
    Encoded kv ∈ recs.

(** ** More of the worker and of the driver *)

(** *** Worker life cycle (worker.go, [Start]) *)

Definition setActiveListening (w : Worker) : Worker :=
  {| jobName := jobName w; mapF := mapF w; reduceF := reduceF w;
     rpcListener := true; active := 1; address := address w;
     mapsDone := mapsDone w; reducesDone := reducesDone w |}.

(** [Start]: the worker is marked active, its listener is opened and it
    registers with the master.  The receive [<-w.done] that follows, on
    which the worker waits for its shutdown, is not part of the model. *)
Definition Start (callMaster : Z -> bool) (w : Worker) : Worker * list event :=
  RegisterWithServer callMaster (setActiveListening w).

(** Time spent in [time.Sleep], in milliseconds. *)
Fixpoint sleepTime (tr : list event) : Z :=
  match tr with
  | [] => 0
  | Sleep ms :: tr' => ms + sleepTime tr'
  | _ :: tr' => sleepTime tr'
  end.

(** *** Text that a JSON record carries unchanged *)

Definition byteIn (lo hi : N) (c : ascii) : bool :=
  ((lo <=? N_of_ascii c) && (N_of_ascii c <=? hi))%N.

Definition continuation (c : ascii) : bool := byteIn 128 191 c.

(** [utf8.Valid]: the bytes are a sequence of well-formed UTF-8 encodings
    (no stray continuation byte, no overlong form, no surrogate, nothing
    above U+10FFFF). *)
Fixpoint validBytes (s : list ascii) : bool :=
  match s with
  | [] => true
  | b0 :: s1 =>
      if byteIn 0 127 b0 then validBytes s1
      else if byteIn 194 223 b0 then
        match s1 with
        | b1 :: s2 => continuation b1 && validBytes s2
        | _ => false
        end
      else if byteIn 224 239 b0 then
        match s1 with
        | b1 :: b2 :: s3 =>
            (if byteIn 224 224 b0 then byteIn 160 191 b1
             else if byteIn 237 237 b0 then byteIn 128 159 b1
             else continuation b1)
            && continuation b2 && validBytes s3
        | _ => false
        end
      else if byteIn 240 244 b0 then
        match s1 with
        | b1 :: b2 :: b3 :: s4 =>
            (if byteIn 240 240 b0 then byteIn 144 191 b1
             else if byteIn 244 244 b0 then byteIn 128 143 b1
             else continuation b1)
            && continuation b2 && continuation b3 && validBytes s4
        | _ => false
        end
      else false
  end.

Definition validUTF8 (s : string) : Prop :=
  validBytes (String.list_ascii_of_string s) = true.

(** A pair that [Encode] and [Decode] carry unchanged. *)
Definition validPair (kv : KeyValue) : Prop :=
  validUTF8 (Key kv) /\ validUTF8 (Value kv).

(** *** Cleaning up between iterations (pagerank/main.go, [cleanUp]) *)

(** [os.Truncate(name, 0)] followed by [checkErr]: a file that is there is
    emptied; for a file that is not there the driver panics, which is
    [None] here. *)
Definition truncateFile (name : string) (fs : FS) : option FS :=
  match fs !! name with
  | Some _ => Some (<[name := []]> fs)
  | None => None
  end.

Section CleanUp.

Variable DataOutputDir : string.

(** The inner loop [for k := 0; k < numMappers; k++] of [cleanUp], for
    reducer [i], with [remaining] iterations to go. *)
Fixpoint cleanUpMappers (job : string) (i k : Z) (remaining : nat) (fs : FS)
    : option FS :=
  match remaining with
  | O => Some fs
  | S remaining' =>
      match truncateFile (reduceInputName DataOutputDir job k i) fs with
      | Some fs' => cleanUpMappers job i (k + 1) remaining' fs'
      | None => None
      end
  end.

(** The outer loop [for i := 0; i < numReducers; i++]. *)
Fixpoint cleanUpReducers (job : string) (numMappers i : Z) (remaining : nat)
    (fs : FS) : option FS :=
  match remaining with
  | O => Some fs
  | S remaining' =>
      match cleanUpMappers job i 0 (Z.to_nat numMappers) fs with
      | Some fs' => cleanUpReducers job numMappers (i + 1) remaining' fs'
      | None => None
      end
  end.

Definition cleanUp (job : string) (numReducers numMappers : Z) (fs : FS)
    : option FS :=
  cleanUpReducers job numMappers 0 (Z.to_nat numReducers) fs.

(** The name is that of a partition file of the job for a mapper below
    [numMappers] and a reducer below [numReducers]. *)
Definition partitionName (job : string) (numReducers numMappers : Z)
    (name : string) : Prop :=
  exists i k, 0 <= i < numReducers /\ 0 <= k < numMappers /\
    name = reduceInputName DataOutputDir job k i.

(** Every record of a partition file of the job is in the file of the
    reducer that the hash of its key selects. *)
Definition routed (ihash : string -> Z) (job : string) (numReducers : Z)
    (fs : FS) : Prop :=
  forall m r recs kv,
    0 <= r < numReducers ->
    fs !! reduceInputName DataOutputDir job m r = Some recs ->
    Encoded kv ∈ recs ->
    ihash (Key kv) mod to_uint32 numReducers = r.

End CleanUp.

(** ** A small job, used to run the model *)

Module Example.

Definition outDir : string := "data/output/".

(** A map function that emits three pairs, whatever it is given. *)
Definition threePairs (fileName contents : string) : list KeyValue :=
  [mkKeyValue "A" "0.5"; mkKeyValue "B" "1"; mkKeyValue "A" "0.25"].

(** A map function that emits one pair. *)
Definition onePair (fileName contents : string) : list KeyValue :=
  [mkKeyValue "A" "1"].

(** A reduce function: the values of the key, joined. *)
Definition joinValues (key : string) (values : list string) : string :=
  foldr (fun v acc => v +:+ ";" +:+ acc) "" values.

Definition worker (mapF : string -> string -> list KeyValue) : Worker :=
  NewWorker "pagerank" mapF joinValues "/var/tmp/824-0/mr-worker-1".

Definition inputs : gmap string string := {[ "in0" := "A: 1.0, B, C" ]}.

Definition reduceOutputName (job : string) (reducerNum : Z) : string :=
  outDir +:+ "mr." +:+ job +:+ "-res-" +:+ Itoa reducerNum.

Definition mergedName (job : string) : string := outDir +:+ "mrtmp." +:+ job.

End Example.

Module ReduceExample.

(** One partition file with a record that does not decode in its middle. *)
Definition damaged : FS :=
  {[ reduceInputName Example.outDir "pagerank" 0 0 :=
       [Encoded (mkKeyValue "A" "1"); Garbled; Encoded (mkKeyValue "B" "2")] ]}.

(** Two partition files of reducer 0, as two map tasks leave them. *)
Definition shuffled : FS :=
  {[ reduceInputName Example.outDir "pagerank" 0 0 :=
       [Encoded (mkKeyValue "A" "0.5"); Encoded (mkKeyValue "B" "1")];
     reduceInputName Example.outDir "pagerank" 1 0 :=
       [Encoded (mkKeyValue "A" "0.25")] ]}.

Definition outputOf (o : outcome reduced) : option file :=
  match o with
  | Done out => reducedFS out !! Example.reduceOutputName "pagerank" 0
  | Panic _ => None
  end.

End ReduceExample.

Module SchedulerExample.

(** One worker runs the only map task of a job; the map phase ends. *)
Definition mapRun : list action :=
  [Register "w1"; Dispatch "w1"; RpcSuccess (MapTask 0); NextPhase].

Definition mapsDone : Scheduler :=
  mkScheduler ReducePhase [Completed] [Idle] [ReduceTask 0]
    {[ "w1" := WorkerIdle ]}.

End SchedulerExample.

Module MergeExample.

(** The output files of two reducers. *)
Definition reducedFiles : FS :=
  {[ Example.reduceOutputName "pagerank" 0 :=
       [Encoded (mkKeyValue "C" "0.5"); Encoded (mkKeyValue "A" "1")];
     Example.reduceOutputName "pagerank" 1 :=
       [Encoded (mkKeyValue "B" "1.5")] ]}.

Definition mergedEntries : list KeyValue :=
  [mkKeyValue "A" "1"; mkKeyValue "B" "1.5"; mkKeyValue "C" "0.5"].

End MergeExample.

Module RunExample.

Definition fromDone {A} (d : A) (o : outcome A) : A :=
  match o with Done a => a | Panic _ => d end.

(** The file system after mapper 0 ran with two reducers. *)
Definition afterMap0 : FS :=
  fromDone ∅ (DoMap Example.outDir fnv32a (Example.worker Example.threePairs)
                Example.inputs "in0" 0 2 ∅).

(** The file system after mapper 1 ran on it, too. *)
Definition afterMap01 : FS :=
  fromDone ∅ (DoMap Example.outDir fnv32a (Example.worker Example.onePair)
                Example.inputs "in0" 1 2 afterMap0).

(** What reducer 0 leaves after the two mappers. *)
Definition afterReduce0 : reduced :=
  fromDone (mkReduced [] ∅)
    (DoReduce Example.outDir Example.reduceOutputName rangeAscending
       (Example.worker Example.threePairs) 0 2 afterMap01).

(** What reducer 1 leaves, the grouping map visited the other way. *)
Definition afterReduce1 : reduced :=
  fromDone (mkReduced [] ∅)
    (DoReduce Example.outDir Example.reduceOutputName rangeDescending
       (Example.worker Example.threePairs) 1 2 afterMap01).

(** The partition files of the two mappers, emptied by the driver. *)
Definition cleaned : FS :=
  default ∅ (cleanUp Example.outDir "pagerank" 2 2 afterMap01).

(** The file system after mapper 0 ran again on the emptied files. *)
Definition afterCleanMap0 : FS :=
  fromDone ∅ (DoMap Example.outDir fnv32a (Example.worker Example.threePairs)
                Example.inputs "in0" 0 2 cleaned).

End RunExample.

(** * Properties *)

(** ** File names *)

Lemma pretty_N_char_digit x : is_digit (pretty_N_char x).
Proof.
  unfold is_digit, pretty_N_char. rewrite list_elem_of_In.
  repeat case_match; simpl; auto 12.
Qed.

Lemma pretty_N_go_digits x : forall s, all_digits s -> all_digits (pretty_N_go x s).
Proof.
  induction (N.lt_wf_0 x) as [x _ IH]; intros s Hs.
  destruct (decide (x = 0)%N) as [->|Hx].
  - by rewrite pretty_N_go_0.
  - rewrite pretty_N_go_step by lia.
    apply IH; [apply N.div_lt; lia|].
    split; [apply pretty_N_char_digit|done].
Qed.

Lemma pretty_N_go_nonempty x s : (0 < x)%N -> pretty_N_go x s <> "".
Proof.
  revert s. induction (N.lt_wf_0 x) as [x _ IH]; intros s Hx.
  rewrite pretty_N_go_step by done.
  destruct (decide (x `div` 10 = 0)%N) as [->|Hd].
  - by rewrite pretty_N_go_0.
  - apply IH; [apply N.div_lt; lia|by apply N.neq_0_lt_0].
Qed.

Lemma pretty_N_digits (x : N) : all_digits (pretty x) /\ pretty x <> "".
Proof.
  unfold pretty, pretty_N. case_decide as Hx.
  - split; [|done]. simpl. split; [|done]. apply (pretty_N_char_digit 0).
  - split; [by apply pretty_N_go_digits|apply pretty_N_go_nonempty; lia].
Qed.

Lemma Itoa_numeral n : numeral (Itoa n).
Proof.
  unfold Itoa, pretty, pretty_Z. destruct n as [|p|p].
  - left. split; [|done]. simpl. split; [|done]. apply (pretty_N_char_digit 0).
  - left. apply (pretty_N_digits (N.pos p)).
  - right. exists (pretty (N.pos p)). split; [done|].
    apply (pretty_N_digits (N.pos p)).
Qed.

Lemma Itoa_inj n1 n2 : Itoa n1 = Itoa n2 -> n1 = n2.
Proof. apply pretty_Z_inj. Qed.

Lemma dash_not_digit : ~ is_digit "-"%char.
Proof.
  unfold is_digit. rewrite list_elem_of_In. simpl.
  intros H. repeat (destruct H as [H|H]; [discriminate H|]). done.
Qed.

Lemma append_cons x (a b : string) : String x a +:+ b = String x (a +:+ b).
Proof. reflexivity. Qed.

Lemma append_nil (b : string) : "" +:+ b = b.
Proof. reflexivity. Qed.

Lemma append_assoc (a b c : string) : (a +:+ b) +:+ c = a +:+ (b +:+ c).
Proof.
  induction a as [|x a IH]; [done|].
  rewrite !append_cons. by f_equal.
Qed.

(** Two digit runs, each followed by the separator, that agree as text are
    the same run. *)
Lemma digits_dash_split d1 : forall d2 t1 t2,
  all_digits d1 -> all_digits d2 ->
  d1 +:+ String "-" t1 = d2 +:+ String "-" t2 -> d1 = d2 /\ t1 = t2.
Proof.
  induction d1 as [|c1 d1 IH]; intros [|c2 d2] t1 t2 H1 H2 Heq;
    rewrite ?append_cons, ?append_nil in Heq.
  - by injection Heq as ->.
  - injection Heq as <- _. destruct H2 as [H2 _]. by destruct dash_not_digit.
  - injection Heq as -> _. destruct H1 as [H1 _]. by destruct dash_not_digit.
  - injection Heq as -> Heq. destruct H1 as [_ H1], H2 as [_ H2].
    destruct (IH d2 t1 t2 H1 H2 Heq) as [-> ->]. done.
Qed.

Lemma numeral_dash_split s1 s2 t1 t2 :
  numeral s1 -> numeral s2 ->
  s1 +:+ String "-" t1 = s2 +:+ String "-" t2 -> s1 = s2 /\ t1 = t2.
Proof.
  intros [[D1 N1]|(d1 & -> & D1 & N1)] [[D2 N2]|(d2 & -> & D2 & N2)] Heq.
  - by apply digits_dash_split.
  - destruct s1 as [|c s1]; [done|]. rewrite !append_cons in Heq.
    injection Heq as -> _. destruct D1 as [D1 _]. by destruct dash_not_digit.
  - destruct s2 as [|c s2]; [done|]. rewrite !append_cons in Heq.
    injection Heq as <- _. destruct D2 as [D2 _]. by destruct dash_not_digit.
  - rewrite !append_cons in Heq. injection Heq as Heq.
    destruct (digits_dash_split d1 d2 t1 t2 D1 D2 Heq) as [-> ->]. done.
Qed.

Section NamingFacts.

Variable DataOutputDir : string.

Lemma reduceInputName_unfold jobName m r :
  reduceInputName DataOutputDir jobName m r =
  (DataOutputDir +:+ "mr." +:+ jobName +:+ "-") +:+
    (Itoa m +:+ String "-" (Itoa r)).
Proof.
  unfold reduceInputName. by rewrite !append_assoc.
Qed.

(** The name of a partition file determines the two indices. *)
Lemma reduceInputName_inj jobName m1 r1 m2 r2 :
  reduceInputName DataOutputDir jobName m1 r1 =
  reduceInputName DataOutputDir jobName m2 r2 ->
  m1 = m2 /\ r1 = r2.
Proof.
  rewrite !reduceInputName_unfold. intros Heq.
  apply (inj (String.app _)) in Heq.
  apply numeral_dash_split in Heq; [|apply Itoa_numeral..].
  destruct Heq as [Hm Hr]. split; by apply Itoa_inj.
Qed.

End NamingFacts.

(** ** File names: the claim *)

(** C9. The name of a partition file is the same function of the output
    directory, the job name and the two indices wherever it is computed,
    and for a fixed job two names are equal exactly when the mapper index
    and the reducer index are both equal: the naming is injective in the
    pair of indices. *)
Theorem reduceInputName_injective DataOutputDir jobName m1 r1 m2 r2 :
  reduceInputName DataOutputDir jobName m1 r1 =
  reduceInputName DataOutputDir jobName m2 r2 <->
  m1 = m2 /\ r1 = r2.
Proof.
  split.
  - apply reduceInputName_inj.
  - by intros [-> ->].
Qed.

Lemma reduceInputName_injective_witness :
  reduceInputName Example.outDir "pagerank" 1 12 =
  reduceInputName Example.outDir "pagerank" 1 12 /\ 1 = 1 /\ 12 = 12.
Proof.
  split; [reflexivity|].
  apply (reduceInputName_injective Example.outDir "pagerank" 1 12 1 12).
  reflexivity.
Defined.

(** ** DoMap: partitioning *)

Section DoMapFacts.

Variable DataOutputDir : string.
Variable ihash : string -> Z.

Lemma to_uint32_range n : 0 <= to_uint32 n < 2 ^ 32.
Proof. unfold to_uint32. apply Z.mod_pos_bound. lia. Qed.

Lemma to_uint32_le n : 0 <= n -> to_uint32 n <= n.
Proof. intros Hn. unfold to_uint32. apply Z.mod_le; lia. Qed.

Lemma to_uint32_small n : 0 <= n < 2 ^ 32 -> to_uint32 n = n.
Proof. intros Hn. unfold to_uint32. by apply Z.mod_small. Qed.

Lemma slotOf_lt n kv :
  0 <= n -> to_uint32 n <> 0 -> (slotOf ihash n kv < Z.to_nat n)%nat.
Proof.
  intros Hn Hd. unfold slotOf.
  pose proof (to_uint32_range n) as Hr. pose proof (to_uint32_le n Hn) as Hle.
  pose proof (Z.mod_pos_bound (ihash (Key kv)) (to_uint32 n)) as Hm. lia.
Qed.

Lemma reducerNumOf_ok key n :
  to_uint32 n <> 0 ->
  reducerNumOf ihash key n = Done (ihash key mod to_uint32 n).
Proof. intros Hd. unfold reducerNumOf. by rewrite decide_False. Qed.

Lemma reducerNumOf_zero key n :
  to_uint32 n = 0 -> reducerNumOf ihash key n = Panic DivideByZero.
Proof. intros Hd. unfold reducerNumOf. by rewrite decide_True. Qed.

(** The partition loop puts every pair at the end of the slice entry of
    its slot and leaves the order of the pairs of one slot as emitted. *)
Lemma partitionKVs_spec n kvs : forall parts,
  to_uint32 n <> 0 ->
  (forall kv, kv ∈ kvs -> (slotOf ihash n kv < length parts)%nat) ->
  exists parts',
    partitionKVs ihash kvs n parts = Done parts' /\
    length parts' = length parts /\
    forall i p, parts !! i = Some p ->
      parts' !! i = Some (p ++ filter (fun kv => slotOf ihash n kv = i) kvs).
Proof.
  intros parts Hd. revert parts.
  induction kvs as [|kv kvs IH]; intros parts Hlen; simpl.
  - exists parts. split; [done|]. split; [done|].
    intros i p Hp. by rewrite filter_nil, app_nil_r.
  - rewrite reducerNumOf_ok by done. simpl. fold (slotOf ihash n kv).
    assert (slotOf ihash n kv < length parts)%nat as Hlt by (apply Hlen; left).
    destruct (lookup_lt_is_Some_2 parts _ Hlt) as [p0 Hp0]. rewrite Hp0.
    destruct (IH (<[slotOf ihash n kv := p0 ++ [kv]]> parts)) as (parts' & Hrun & Hl & Hget).
    { intros kv' Hin. rewrite length_insert. apply Hlen. by right. }
    exists parts'. split; [done|]. split; [by rewrite Hl, length_insert|].
    intros i p Hp. rewrite filter_cons.
    destruct (decide (slotOf ihash n kv = i)) as [<-|Hne].
    + rewrite (Hget _ (p0 ++ [kv])).
      * replace p with p0 by congruence. by rewrite <- app_assoc.
      * by apply list_lookup_insert_eq.
    + apply Hget. by rewrite list_lookup_insert_ne.
Qed.

Lemma partitionKVs_zero n kv kvs parts :
  to_uint32 n = 0 ->
  partitionKVs ihash (kv :: kvs) n parts = Panic DivideByZero.
Proof. intros Hd. simpl. by rewrite reducerNumOf_zero. Qed.

(** The save loop appends entry [i] of the slice to the file of reducer
    [reducerNum + i] and touches no other file. *)
Lemma savePartitions_other job m parts : forall r0 fs name,
  (forall i, (i < length parts)%nat ->
     name <> reduceInputName DataOutputDir job m (r0 + Z.of_nat i)) ->
  savePartitions DataOutputDir job m r0 parts fs !! name = fs !! name.
Proof.
  induction parts as [|p parts IH]; intros r0 fs name Hne; simpl; [done|].
  rewrite IH.
  - unfold appendRecords. rewrite lookup_insert_ne; [done|].
    intros Heq. apply (Hne 0%nat); [simpl; lia|].
    by rewrite Z.add_0_r.
  - intros i Hi. replace (r0 + 1 + Z.of_nat i) with (r0 + Z.of_nat (S i)) by lia.
    apply Hne. simpl. lia.
Qed.

Lemma savePartitions_lookup job m parts : forall r0 fs i p,
  parts !! i = Some p ->
  savePartitions DataOutputDir job m r0 parts fs
    !! reduceInputName DataOutputDir job m (r0 + Z.of_nat i)
  = Some (default [] (fs !! reduceInputName DataOutputDir job m (r0 + Z.of_nat i))
          ++ (Encoded <$> p)).
Proof.
  induction parts as [|p0 parts IH]; intros r0 fs i p Hp; [done|].
  destruct i as [|i].
  - injection Hp as ->. change (Z.of_nat 0) with 0. rewrite Z.add_0_r.
    cbn [savePartitions]. rewrite savePartitions_other.
    + unfold appendRecords. by rewrite lookup_insert_eq.
    + intros i _ Heq. apply reduceInputName_inj in Heq. lia.
  - change ((p0 :: parts) !! S i) with (parts !! i) in Hp.
    replace (r0 + Z.of_nat (S i)) with (r0 + 1 + Z.of_nat i) by lia.
    cbn [savePartitions]. rewrite (IH (r0 + 1) _ i p Hp).
    unfold appendRecords. rewrite lookup_insert_ne; [done|].
    intros Heq. apply reduceInputName_inj in Heq. lia.
Qed.

Lemma emittedFor_slot n kvs r :
  0 <= r -> to_uint32 n <> 0 ->
  filter (fun kv => slotOf ihash n kv = Z.to_nat r) kvs = emittedFor ihash n kvs r.
Proof.
  intros Hr Hd. unfold emittedFor. apply list_filter_iff. intros kv.
  unfold slotOf. pose proof (to_uint32_range n).
  pose proof (Z.mod_pos_bound (ihash (Key kv)) (to_uint32 n)). lia.
Qed.

(** What a run of [DoMap] that gets past the partition loop leaves. *)
Lemma DoMap_general (w : Worker) inputs inputFileName content m n fs :
  inputs !! inputFileName = Some content ->
  0 <= n ->
  (to_uint32 n <> 0 \/ mapF w inputFileName content = []) ->
  exists fs',
    DoMap DataOutputDir ihash w inputs inputFileName m n fs = Done fs' /\
    (forall r, 0 <= r < n ->
       fs' !! reduceInputName DataOutputDir (jobName w) m r =
       Some (default [] (fs !! reduceInputName DataOutputDir (jobName w) m r)
             ++ (Encoded <$> emittedFor ihash n (mapF w inputFileName content) r))) /\
    (forall name,
       (forall r, 0 <= r < n ->
          name <> reduceInputName DataOutputDir (jobName w) m r) ->
       fs' !! name = fs !! name).
Proof.
  intros Hin Hn Hcase. unfold DoMap. rewrite Hin. simpl.
  set (kvs := mapF w inputFileName content) in *.
  assert (exists parts',
    partitionKVs ihash kvs n (replicate (Z.to_nat n) []) = Done parts' /\
    length parts' = Z.to_nat n /\
    forall i, (i < Z.to_nat n)%nat ->
      parts' !! i = Some (emittedFor ihash n kvs (Z.of_nat i))) as (parts' & -> & Hl & Hget).
  { destruct Hcase as [Hd|Hnil].
    - destruct (partitionKVs_spec n kvs (replicate (Z.to_nat n) []) Hd)
        as (parts' & Hrun & Hl & Hget).
      { intros kv _. rewrite length_replicate. by apply slotOf_lt. }
      exists parts'. split; [done|]. rewrite length_replicate in Hl.
      split; [done|]. intros i Hi.
      rewrite (Hget i []); [|by apply lookup_replicate_2].
      simpl. rewrite <- emittedFor_slot by (done || lia).
      by rewrite Nat2Z.id.
    - rewrite Hnil. simpl. exists (replicate (Z.to_nat n) []).
      split; [done|]. split; [by rewrite length_replicate|].
      intros i Hi. by rewrite lookup_replicate_2. }
  simpl. eexists. split; [done|]. split.
  - intros r Hr.
    pose proof (savePartitions_lookup (jobName w) m parts' 0 fs (Z.to_nat r)
                  (emittedFor ihash n kvs r)) as Hs.
    rewrite Z.add_0_l, Z2Nat.id in Hs by lia. apply Hs.
    rewrite Hget by lia. by rewrite Z2Nat.id by lia.
  - intros name Hne. apply savePartitions_other.
    intros i Hi. rewrite Z.add_0_l. apply Hne. lia.
Qed.

Lemma DoMap_divide_by_zero (w : Worker) inputs inputFileName content m n fs :
  inputs !! inputFileName = Some content ->
  to_uint32 n = 0 ->
  mapF w inputFileName content <> [] ->
  DoMap DataOutputDir ihash w inputs inputFileName m n fs = Panic DivideByZero.
Proof.
  intros Hin Hd Hne. unfold DoMap. rewrite Hin. simpl.
  destruct (mapF w inputFileName content) as [|kv kvs]; [done|].
  by rewrite partitionKVs_zero.
Qed.

End DoMapFacts.

(** ** DoMap: the claims *)

Section DoMapClaims.

Variable DataOutputDir : string.
Variable ihash : string -> Z.

(** Below 2^32 reducers the conversion to 32 bits loses nothing and the
    routing is the documented one: [DoMap] returns, and the pairs it adds to
    the partition file of reducer [r] are the emitted pairs whose key has
    [ihash key mod numReducers = r], each as often as it was emitted, so
    that an emitted pair goes to the one partition of that index. *)
Lemma DoMap_routes_by_hash (w : Worker) inputs inputFileName content m n fs :
  inputs !! inputFileName = Some content ->
  1 <= n < 2 ^ 32 ->
  exists fs',
    DoMap DataOutputDir ihash w inputs inputFileName m n fs = Done fs' /\
    (forall r, 0 <= r < n ->
       fs' !! reduceInputName DataOutputDir (jobName w) m r =
       Some (default [] (fs !! reduceInputName DataOutputDir (jobName w) m r)
             ++ (Encoded <$>
                   filter (fun kv => ihash (Key kv) mod n = r)
                     (mapF w inputFileName content)))) /\
    (forall kv, kv ∈ mapF w inputFileName content ->
       0 <= ihash (Key kv) mod n < n /\
       forall r, 0 <= r < n ->
         (kv ∈ filter (fun kv' => ihash (Key kv') mod n = r)
                 (mapF w inputFileName content)
          <-> r = ihash (Key kv) mod n)).
Proof.
  intros Hin Hn.
  destruct (DoMap_general DataOutputDir ihash w inputs inputFileName content m n fs)
    as (fs' & Hrun & Hget & _); [done|lia|left; rewrite to_uint32_small; lia|].
  exists fs'. split; [done|]. split.
  - intros r Hr. rewrite (Hget r Hr). unfold emittedFor.
    by rewrite to_uint32_small by lia.
  - intros kv Hkv. split; [apply Z.mod_pos_bound; lia|].
    intros r Hr. rewrite list_elem_of_filter. split; [by intros [<- _]|by intros ->].
Qed.

(** C5. A run of [DoMap] that returns has read its input and has appended
    to the partition file of every reducer index below [numReducers],
    creating the file when it was absent and adding nothing to it when no
    pair is for it; these [numReducers] files have different names and no
    other file has changed; the pairs added to one file are in the order in
    which the map function emitted them.  The run does return when the
    input is readable and the number of reducers, cut to 32 bits, is not
    zero, or nothing is emitted. *)
Theorem DoMap_partition_files (w : Worker) inputs inputFileName m n fs :
  0 <= n ->
  (forall content,
     inputs !! inputFileName = Some content ->
     to_uint32 n <> 0 \/ mapF w inputFileName content = [] ->
     returns (DoMap DataOutputDir ihash w inputs inputFileName m n fs)) /\
  (forall fs',
     DoMap DataOutputDir ihash w inputs inputFileName m n fs = Done fs' ->
     exists content,
       inputs !! inputFileName = Some content /\
       (forall r, 0 <= r < n ->
          exists added,
            fs' !! reduceInputName DataOutputDir (jobName w) m r =
              Some (default [] (fs !! reduceInputName DataOutputDir (jobName w) m r)
                    ++ (Encoded <$> added)) /\
            added = emittedFor ihash n (mapF w inputFileName content) r /\
            sublist added (mapF w inputFileName content)) /\
       (forall r r', 0 <= r < n -> 0 <= r' < n -> r <> r' ->
          reduceInputName DataOutputDir (jobName w) m r <>
          reduceInputName DataOutputDir (jobName w) m r') /\
       (forall name,
          (forall r, 0 <= r < n ->
             name <> reduceInputName DataOutputDir (jobName w) m r) ->
          fs' !! name = fs !! name)).
Proof.
  intros Hn. split.
  - intros content Hin Hcase.
    destruct (DoMap_general DataOutputDir ihash w inputs inputFileName content m n fs)
      as (fs' & -> & _); done.
  - intros fs' Hrun.
    destruct (inputs !! inputFileName) as [content|] eqn:Hin.
    2:{ unfold DoMap in Hrun. by rewrite Hin in Hrun. }
    assert (to_uint32 n <> 0 \/ mapF w inputFileName content = []) as Hcase.
    { destruct (decide (to_uint32 n = 0)) as [Hd|Hd]; [|by left]. right.
      destruct (mapF w inputFileName content) as [|kv kvs] eqn:Hkvs; [done|].
      rewrite (DoMap_divide_by_zero DataOutputDir ihash w inputs inputFileName
                 content m n fs) in Hrun; [done|done|done|].
      by rewrite Hkvs. }
    destruct (DoMap_general DataOutputDir ihash w inputs inputFileName content m n fs)
      as (fs1 & Hrun1 & Hget & Hother); [done..|].
    assert (fs1 = fs') as -> by congruence.
    exists content. split; [done|]. split; [|split; [|done]].
    + intros r Hr. eexists. split; [by apply Hget|]. split; [done|].
      apply sublist_filter.
    + intros r r' _ _ Hne Heq. apply reduceInputName_inj in Heq. lia.
Qed.

End DoMapClaims.

(** C1. The code departs from the claim and from the comment of [DoMap],
    "the ihash function modulo the number of reducers": line 70 reduces the
    hash modulo the number of reducers cut to 32 bits.  With 2^32 + 2
    reducers, a value of the type [uint], the index of any key is its hash
    modulo 2; for the key "A" this is not its hash modulo the number of
    reducers. *)
Theorem reducerNum_cuts_numReducers_to_32_bits :
  (forall (ihash : string -> Z) (key : string),
     reducerNumOf ihash key 4294967298 = Done (ihash key mod 2)) /\
  fnv32a "A" mod 2 <> fnv32a "A" mod 4294967298 /\
  is_uint 4294967298.
Proof.
  split; [|split].
  - intros ihash key. unfold reducerNumOf.
    change (to_uint32 4294967298) with 2.
    destruct (decide (2 = 0)) as [Heq|_]; [lia|reflexivity].
  - vm_compute; discriminate.
  - unfold is_uint, uint_bits. lia.
Qed.

Lemma DoMap_partition_files_witness :
  returns (DoMap Example.outDir fnv32a (Example.worker Example.threePairs)
             Example.inputs "in0" 0 2 ∅).
Proof.
  apply (DoMap_partition_files Example.outDir fnv32a
           (Example.worker Example.threePairs) Example.inputs "in0" 0 2 ∅
           ltac:(lia)) with (content := "A: 1.0, B, C").
  - vm_compute; reflexivity.
  - left. vm_compute; discriminate.
Defined.

(** C10. The code departs from the claim: the divisor of line 70 is the
    number of reducers cut to 32 bits, which is zero for 2^32 reducers, a
    number that is at least one and a value of the type [uint]; the
    division for the first emitted pair is then a division by zero,
    whatever the hash and the key. *)
Theorem reducerNum_divides_by_zero_at_2_pow_32 :
  (forall (ihash : string -> Z) (key : string),
     reducerNumOf ihash key 4294967296 = Panic DivideByZero) /\
  1 <= 4294967296 /\
  is_uint 4294967296.
Proof.
  split; [|split].
  - intros ihash key. unfold reducerNumOf.
    change (to_uint32 4294967296) with 0.
    destruct (decide (0 = 0)) as [_|Hne]; [reflexivity|lia].
  - lia.
  - unfold is_uint, uint_bits. lia.
Qed.

(** ** DoReduce: grouping *)

Lemma addValues_app o a b : addValues (addValues o a) b = addValues o (a ++ b).
Proof.
  destruct a as [|x a], b as [|y b]; simpl; rewrite ?app_nil_r; try done.
  by rewrite <- app_assoc.
Qed.

Lemma valuesOf_app key a b : valuesOf key (a ++ b) = valuesOf key a ++ valuesOf key b.
Proof. unfold valuesOf. by rewrite filter_app, fmap_app. Qed.

Lemma valuesOf_cons key kv kvs :
  valuesOf key (kv :: kvs) =
  if decide (Key kv = key) then Value kv :: valuesOf key kvs else valuesOf key kvs.
Proof. unfold valuesOf. rewrite filter_cons. by case_decide. Qed.

Lemma valuesOf_nil_iff key kvs : valuesOf key kvs = [] <-> key ∉ Key <$> kvs.
Proof.
  induction kvs as [|kv kvs IH].
  - split; [intros _; apply not_elem_of_nil|done].
  - rewrite valuesOf_cons, fmap_cons, not_elem_of_cons.
    case_decide as Hk.
    + split; [done|]. intros [Hne _]. congruence.
    + rewrite IH. split; [intros Hn; split; [congruence|done]|by intros [_ Hn]].
Qed.

Lemma decodedPrefix_encoded kvs : decodedPrefix (Encoded <$> kvs) = kvs.
Proof. induction kvs as [|kv kvs IH]; simpl; [done|by f_equal]. Qed.

Lemma decodedPrefix_all recs :
  Forall isEncoded recs -> decodedPrefix recs = omap pairOf recs.
Proof.
  induction 1 as [|[kv|] recs Hx _ IH]; simpl; [done| |done].
  by rewrite IH.
Qed.

(** The decoding loop adds, to the entry of every key, the values the key
    has in the records up to the first one that does not decode. *)
Lemma decodeLoop_lookup recs : forall kvMap key,
  decodeLoop recs kvMap !! key =
  addValues (kvMap !! key) (valuesOf key (decodedPrefix recs)).
Proof.
  induction recs as [|[kv|] recs IH]; intros kvMap key; simpl; [done| |done].
  rewrite IH, valuesOf_cons. case_decide as Hk.
  - subst key. rewrite lookup_insert_eq.
    change (Some (default [] (kvMap !! Key kv) ++ [Value kv]))
      with (addValues (kvMap !! Key kv) [Value kv]).
    by rewrite addValues_app.
  - by rewrite lookup_insert_ne.
Qed.

Section DoReduceFacts.

Variable DataOutputDir : string.
Variable ReduceOutputName : string -> Z -> string.

Lemma readMappers_spec job r fs remaining : forall m0 kvMap,
  (forall i, (i < remaining)%nat ->
     is_Some (fs !! reduceInputName DataOutputDir job (m0 + Z.of_nat i) r)) ->
  exists kvMap',
    readMappers DataOutputDir job r m0 remaining fs kvMap = Done kvMap' /\
    forall key,
      kvMap' !! key =
      addValues (kvMap !! key)
        (valuesOf key (pairsRead DataOutputDir job r m0 remaining fs)).
Proof.
  induction remaining as [|n IH]; intros m0 kvMap Hfiles.
  - exists kvMap. by split.
  - destruct (Hfiles 0%nat) as [recs Hrecs]; [lia|].
    rewrite Z.add_0_r in Hrecs. cbn [readMappers pairsRead]. rewrite Hrecs.
    destruct (IH (m0 + 1) (decodeLoop recs kvMap)) as (kvMap' & Hrun & Hget).
    { intros i Hi. replace (m0 + 1 + Z.of_nat i) with (m0 + Z.of_nat (S i)) by lia.
      apply Hfiles. lia. }
    exists kvMap'. split; [done|]. intros key.
    by rewrite Hget, decodeLoop_lookup, addValues_app, valuesOf_app.
Qed.

Lemma readMappers_missing job r fs remaining : forall m0 kvMap i,
  (i < remaining)%nat ->
  fs !! reduceInputName DataOutputDir job (m0 + Z.of_nat i) r = None ->
  readMappers DataOutputDir job r m0 remaining fs kvMap = Panic OpenError.
Proof.
  induction remaining as [|n IH]; intros m0 kvMap i Hi Hnone; [lia|].
  cbn [readMappers].
  destruct (fs !! reduceInputName DataOutputDir job m0 r) as [recs|] eqn:Hrecs;
    [|done].
  destruct i as [|i]; [rewrite Z.add_0_r in Hnone; congruence|].
  apply (IH (m0 + 1) _ i); [lia|].
  by replace (m0 + 1 + Z.of_nat i) with (m0 + Z.of_nat (S i)) by lia.
Qed.

Lemma pairsRead_allPairs job r fs remaining : forall m0,
  (forall i, (i < remaining)%nat ->
     exists recs, fs !! reduceInputName DataOutputDir job (m0 + Z.of_nat i) r = Some recs
                  /\ Forall isEncoded recs) ->
  pairsRead DataOutputDir job r m0 remaining fs =
  allPairs DataOutputDir job r m0 remaining fs.
Proof.
  induction remaining as [|n IH]; intros m0 Hfiles; [done|].
  cbn [pairsRead allPairs].
  destruct (Hfiles 0%nat) as (recs & Hrecs & Henc); [lia|].
  rewrite Z.add_0_r in Hrecs. rewrite Hrecs. simpl.
  rewrite decodedPrefix_all by done. f_equal. apply IH.
  intros i Hi. replace (m0 + 1 + Z.of_nat i) with (m0 + Z.of_nat (S i)) by lia.
  apply Hfiles. lia.
Qed.

(** What a run of [DoReduce] leaves when the partition files are there. *)
Lemma DoReduce_general rangeMap (w : Worker) r numMappers fs :
  legalRange rangeMap ->
  (forall m, 0 <= m < numMappers ->
     is_Some (fs !! reduceInputName DataOutputDir (jobName w) m r)) ->
  exists calls,
    DoReduce DataOutputDir ReduceOutputName rangeMap w r numMappers fs =
      Done (mkReduced calls
              (<[ReduceOutputName (jobName w) r := Encoded <$> (reducedPair w <$> calls)]> fs)) /\
    NoDup (calls.*1) /\
    forall key vs,
      (key, vs) ∈ calls <->
      vs = valuesOf key (pairsRead DataOutputDir (jobName w) r 0 (Z.to_nat numMappers) fs)
      /\ vs <> [].
Proof.
  intros Hlegal Hfiles. unfold DoReduce.
  destruct (readMappers_spec (jobName w) r fs (Z.to_nat numMappers) 0 ∅)
    as (kvMap & -> & Hget).
  { intros i Hi. apply Hfiles. lia. }
  simpl. exists (rangeMap kvMap). split; [done|]. split.
  - rewrite (Hlegal kvMap). apply NoDup_fst_map_to_list.
  - intros key vs. rewrite (Hlegal kvMap), elem_of_map_to_list, Hget, lookup_empty.
    set (all := valuesOf key _). destruct all as [|v all]; simpl.
    + split; [done|]. by intros [-> ?].
    + split; [by intros [= <-]|]. by intros [-> _].
Qed.

End DoReduceFacts.

Lemma rangeAscending_legal : legalRange rangeAscending.
Proof. by intros m. Qed.

Lemma rangeDescending_legal : legalRange rangeDescending.
Proof. intros m. unfold rangeDescending. by rewrite reverse_Permutation. Qed.

(** ** DoReduce: the claims *)

Section DoReduceClaims.

Variable DataOutputDir : string.
Variable ReduceOutputName : string -> Z -> string.

(** C4. When the [numMappers] partition files of reducer [r] are there and
    hold encoded pairs only, [DoReduce] returns; with [all] the pairs of
    these files, file after file, the reduce function is called once for
    every key of [all] and for no other key, each time with the values of
    the key in the order of [all]; the output file of the reducer is
    replaced by one pair for each call, the key with the value the call
    returned; no other file changes. *)
Theorem DoReduce_groups_by_key rangeMap (w : Worker) r numMappers fs :
  legalRange rangeMap ->
  (forall m, 0 <= m < numMappers ->
     exists recs,
       fs !! reduceInputName DataOutputDir (jobName w) m r = Some recs /\
       Forall isEncoded recs) ->
  let all := allPairs DataOutputDir (jobName w) r 0 (Z.to_nat numMappers) fs in
  exists calls,
    DoReduce DataOutputDir ReduceOutputName rangeMap w r numMappers fs =
      Done (mkReduced calls
              (<[ReduceOutputName (jobName w) r :=
                   Encoded <$> (reducedPair w <$> calls)]> fs)) /\
    NoDup (calls.*1) /\
    (forall key, key ∈ calls.*1 <-> key ∈ Key <$> all) /\
    (forall key vs, (key, vs) ∈ calls -> vs = valuesOf key all) /\
    NoDup (Key <$> (reducedPair w <$> calls)) /\
    (forall key, key ∈ Key <$> (reducedPair w <$> calls) <-> key ∈ Key <$> all).
Proof.
  intros Hlegal Hfiles all.
  destruct (DoReduce_general DataOutputDir ReduceOutputName rangeMap w r numMappers fs)
    as (calls & Hrun & Hnodup & Hcalls); [done| |].
  { intros m Hm. destruct (Hfiles m Hm) as (recs & -> & _). by eexists. }
  rewrite pairsRead_allPairs in Hcalls.
  2:{ intros i Hi. rewrite Z.add_0_l. apply Hfiles. lia. }
  fold all in Hcalls.
  assert (forall key, key ∈ calls.*1 <-> key ∈ Key <$> all) as Hkeys.
  { intros key. rewrite list_elem_of_fmap. split.
    - intros ([k vs] & -> & Hin). apply Hcalls in Hin as [-> Hne]. simpl.
      destruct (decide (k ∈ Key <$> all)) as [|Hnot]; [done|].
      by apply valuesOf_nil_iff in Hnot.
    - intros Hin. exists (key, valuesOf key all). split; [done|].
      apply Hcalls. split; [done|]. intros Hnil.
      by apply valuesOf_nil_iff in Hnil. }
  assert (Key <$> (reducedPair w <$> calls) = calls.*1) as Hfst.
  { rewrite <- list_fmap_compose. by apply list_fmap_ext. }
  exists calls. rewrite Hfst.
  split; [done|]. split; [done|]. split; [done|]. split; [|by split].
  intros key vs Hin. by apply Hcalls in Hin as [-> _].
Qed.

(** C6, as amended. A record that does not decode is no error of
    [DoReduce]: the run returns whenever the [numMappers] partition files
    are there, whatever their records; a file is read up to its first
    record that does not decode, and the reduce function is called for the
    keys of the pairs read, with their values.  The run aborts only for a
    partition file that is not there. *)
Theorem DoReduce_stops_at_undecodable rangeMap (w : Worker) r numMappers fs :
  legalRange rangeMap ->
  0 <= numMappers ->
  let read := pairsRead DataOutputDir (jobName w) r 0 (Z.to_nat numMappers) fs in
  ((forall m, 0 <= m < numMappers ->
      is_Some (fs !! reduceInputName DataOutputDir (jobName w) m r)) ->
   exists calls,
     DoReduce DataOutputDir ReduceOutputName rangeMap w r numMappers fs =
       Done (mkReduced calls
               (<[ReduceOutputName (jobName w) r :=
                    Encoded <$> (reducedPair w <$> calls)]> fs)) /\
     forall key vs, (key, vs) ∈ calls <-> vs = valuesOf key read /\ vs <> []) /\
  (forall m, 0 <= m < numMappers ->
     fs !! reduceInputName DataOutputDir (jobName w) m r = None ->
     DoReduce DataOutputDir ReduceOutputName rangeMap w r numMappers fs =
       Panic OpenError).
Proof.
  intros Hlegal Hn read. split.
  - intros Hfiles.
    destruct (DoReduce_general DataOutputDir ReduceOutputName rangeMap w r numMappers fs)
      as (calls & Hrun & _ & Hcalls); [done..|].
    by exists calls.
  - intros m Hm Hnone. unfold DoReduce.
    rewrite (readMappers_missing DataOutputDir (jobName w) r fs
               (Z.to_nat numMappers) 0 ∅ (Z.to_nat m)); [done|lia|].
    by rewrite Z.add_0_l, Z2Nat.id by lia.
Qed.

(** C8, as amended. Two runs of [DoReduce] over the same file system, with
    any two visiting orders of the grouping map, both return when the
    partition files are there; the reducer output of the one holds the same
    records as that of the other, each once, in an order that may differ
    (no key occurs twice, so the two outputs give every key the same
    value); all other files are the same. *)
Theorem DoReduce_output_up_to_order range1 range2 (w : Worker) r numMappers fs :
  legalRange range1 -> legalRange range2 ->
  (forall m, 0 <= m < numMappers ->
     is_Some (fs !! reduceInputName DataOutputDir (jobName w) m r)) ->
  exists out1 out2,
    DoReduce DataOutputDir ReduceOutputName range1 w r numMappers fs = Done out1 /\
    DoReduce DataOutputDir ReduceOutputName range2 w r numMappers fs = Done out2 /\
    exists recs1 recs2,
      reducedFS out1 !! ReduceOutputName (jobName w) r = Some (Encoded <$> recs1) /\
      reducedFS out2 !! ReduceOutputName (jobName w) r = Some (Encoded <$> recs2) /\
      recs1 ≡ₚ recs2 /\
      NoDup (Key <$> recs1) /\
      (forall name, name <> ReduceOutputName (jobName w) r ->
         reducedFS out1 !! name = reducedFS out2 !! name).
Proof.
  intros Hl1 Hl2 Hfiles.
  destruct (DoReduce_general DataOutputDir ReduceOutputName range1 w r numMappers fs)
    as (calls1 & Hrun1 & Hnd1 & Hc1); [done..|].
  destruct (DoReduce_general DataOutputDir ReduceOutputName range2 w r numMappers fs)
    as (calls2 & Hrun2 & Hnd2 & Hc2); [done..|].
  eexists _, _. split; [exact Hrun1|]. split; [exact Hrun2|].
  exists (reducedPair w <$> calls1), (reducedPair w <$> calls2). simpl.
  rewrite !lookup_insert_eq. split; [done|]. split; [done|]. split; [|split].
  - apply fmap_Permutation. apply NoDup_Permutation.
    + by eapply NoDup_fmap_1.
    + by eapply NoDup_fmap_1.
    + intros [key vs]. by rewrite Hc1, Hc2.
  - replace (Key <$> (reducedPair w <$> calls1)) with (calls1.*1); [done|].
    rewrite <- list_fmap_compose. by apply list_fmap_ext.
  - intros name Hne. by rewrite !lookup_insert_ne.
Qed.

End DoReduceClaims.

Lemma DoReduce_groups_by_key_witness :
  returns (DoReduce Example.outDir Example.reduceOutputName rangeAscending
             (Example.worker Example.threePairs) 0 2 ReduceExample.shuffled).
Proof.
  destruct (DoReduce_groups_by_key Example.outDir Example.reduceOutputName
              rangeAscending (Example.worker Example.threePairs) 0 2
              ReduceExample.shuffled) as (calls & -> & _).
  - exact rangeAscending_legal.
  - intros m Hm. assert (m = 0 \/ m = 1) as [-> | ->] by lia.
    + exists [Encoded (mkKeyValue "A" "0.5"); Encoded (mkKeyValue "B" "1")].
      split; [vm_compute; reflexivity|]. repeat constructor.
    + exists [Encoded (mkKeyValue "A" "0.25")].
      split; [vm_compute; reflexivity|]. repeat constructor.
  - exact I.
Defined.

(** C6, the claim as written fails: the partition file holds a record that
    does not decode, and the reduce task returns, with the pair before that
    record reduced and the pair after it left out. *)
Lemma DoReduce_returns_on_undecodable_record :
  ReduceExample.damaged !! reduceInputName Example.outDir "pagerank" 0 0 =
    Some [Encoded (mkKeyValue "A" "1"); Garbled; Encoded (mkKeyValue "B" "2")] /\
  DoReduce Example.outDir Example.reduceOutputName rangeAscending
    (Example.worker Example.threePairs) 0 1 ReduceExample.damaged =
  Done (mkReduced [("A", ["1"])]
          (<[Example.reduceOutputName "pagerank" 0 :=
               [Encoded (mkKeyValue "A" "1;")]]> ReduceExample.damaged)).
Proof.
  split; vm_compute; reflexivity.
Qed.

Lemma DoReduce_stops_at_undecodable_witness :
  returns (DoReduce Example.outDir Example.reduceOutputName rangeAscending
             (Example.worker Example.threePairs) 0 1 ReduceExample.damaged).
Proof.
  destruct (DoReduce_stops_at_undecodable Example.outDir Example.reduceOutputName
              rangeAscending (Example.worker Example.threePairs) 0 1
              ReduceExample.damaged) as [Hret _].
  - exact rangeAscending_legal.
  - lia.
  - destruct Hret as (calls & -> & _); [|exact I].
    intros m Hm. assert (m = 0) as -> by lia.
    exists [Encoded (mkKeyValue "A" "1"); Garbled; Encoded (mkKeyValue "B" "2")].
    vm_compute; reflexivity.
Defined.

(** C8, the claim as written fails: over the same partition files, the run
    that visits the grouping map in one order and the run that visits it in
    the opposite order write different reducer outputs. *)
Lemma DoReduce_output_depends_on_range_order :
  legalRange rangeAscending /\ legalRange rangeDescending /\
  ReduceExample.outputOf
    (DoReduce Example.outDir Example.reduceOutputName rangeAscending
       (Example.worker Example.threePairs) 0 2 ReduceExample.shuffled) <>
  ReduceExample.outputOf
    (DoReduce Example.outDir Example.reduceOutputName rangeDescending
       (Example.worker Example.threePairs) 0 2 ReduceExample.shuffled).
Proof.
  split; [exact rangeAscending_legal|]. split; [exact rangeDescending_legal|].
  vm_compute; discriminate.
Qed.

Lemma DoReduce_output_up_to_order_witness :
  returns (DoReduce Example.outDir Example.reduceOutputName rangeDescending
             (Example.worker Example.threePairs) 0 2 ReduceExample.shuffled).
Proof.
  destruct (DoReduce_output_up_to_order Example.outDir Example.reduceOutputName
              rangeAscending rangeDescending (Example.worker Example.threePairs)
              0 2 ReduceExample.shuffled) as (out1 & out2 & _ & -> & _).
  - exact rangeAscending_legal.
  - exact rangeDescending_legal.
  - intros m Hm. assert (m = 0 \/ m = 1) as [-> | ->] by lia.
    + exists [Encoded (mkKeyValue "A" "0.5"); Encoded (mkKeyValue "B" "1")].
      vm_compute; reflexivity.
    + exists [Encoded (mkKeyValue "A" "0.25")].
      vm_compute; reflexivity.
  - exact I.
Defined.

(** ** Registration with the master *)

Lemma schedule_cons e tr :
  schedule (e :: tr) =
  if orb (isCall e) (isSleep e) then e :: schedule tr else schedule tr.
Proof. unfold schedule. rewrite filter_cons. by destruct e. Qed.

Lemma schedule_app tr1 tr2 : schedule (tr1 ++ tr2) = schedule tr1 ++ schedule tr2.
Proof. unfold schedule. apply filter_app. Qed.

Lemma attempts_cons e tr :
  attempts (e :: tr) = if isCall e then S (attempts tr) else attempts tr.
Proof. unfold attempts. rewrite filter_cons. by destruct e. Qed.

Lemma attempts_app tr1 tr2 : attempts (tr1 ++ tr2) = (attempts tr1 + attempts tr2)%nat.
Proof. unfold attempts. by rewrite filter_app, length_app. Qed.

Lemma registerLoop_ok callMaster addr i remaining :
  registerLoop callMaster addr i remaining true = (true, []).
Proof. by destruct remaining. Qed.

Lemma failedRound_facts addr i :
  schedule (failedRound addr i) = [CallMaster "Register" addr; Sleep 250] /\
  attempts (failedRound addr i) = 1%nat /\
  CloseListener ∉ failedRound addr i.
Proof.
  unfold failedRound. case_decide; (split; [done|split; [done|]]);
    rewrite list_elem_of_In; simpl; intros Hin;
    repeat (destruct Hin as [Hin|Hin]; [discriminate Hin|]); done.
Qed.

(** The loop, started at round [i] with [remaining] rounds to go: it stops
    at the first round at which the master answers, and otherwise runs all
    its rounds. *)
Lemma registerLoop_spec callMaster addr remaining : forall i,
  let loop := registerLoop callMaster addr i remaining false in
  (CloseListener ∉ loop.2) /\
  match firstSuccess callMaster i remaining with
  | Some j =>
      i <= j < i + Z.of_nat remaining /\ callMaster j = true /\
      (forall k, i <= k < j -> callMaster k = false) /\
      loop.1 = true /\
      schedule loop.2 =
        failedRounds addr (Z.to_nat (j - i)) ++ [CallMaster "Register" addr] /\
      attempts loop.2 = S (Z.to_nat (j - i))
  | None =>
      (forall k, i <= k < i + Z.of_nat remaining -> callMaster k = false) /\
      loop.1 = false /\
      schedule loop.2 = failedRounds addr remaining /\
      attempts loop.2 = remaining
  end.
Proof.
  induction remaining as [|n IH]; intros i; cbn [registerLoop firstSuccess].
  - split; [apply not_elem_of_nil|]. split; [intros k Hk; lia|done].
  - destruct (callMaster i) eqn:Hi.
    + rewrite registerLoop_ok. cbn [fst snd]. rewrite app_nil_r.
      split.
      { rewrite list_elem_of_In. simpl. intros [H|H]; [discriminate H|done]. }
      split; [lia|]. split; [done|]. split; [intros k Hk; lia|].
      split; [done|]. rewrite Z.sub_diag. by split.
    + specialize (IH (i + 1)). cbn zeta in IH. destruct IH as [Hclose IH].
      fold (failedRound addr i).
      destruct (failedRound_facts addr i) as (Hs & Ha & Hc).
      cbn [fst snd]. rewrite schedule_app, attempts_app, Hs, Ha.
      split; [rewrite elem_of_app; tauto|].
      destruct (firstSuccess callMaster (i + 1) n) as [j|].
      * destruct IH as (Hj & Hcj & Hbefore & Hok & Hsch & Hatt).
        split; [lia|]. split; [done|]. split.
        { intros k Hk. destruct (decide (k = i)) as [->|Hne]; [done|].
          apply Hbefore. lia. }
        split; [done|].
        replace (Z.to_nat (j - i)) with (S (Z.to_nat (j - (i + 1)))) by lia.
        split; [by rewrite Hsch|by rewrite Hatt].
      * destruct IH as (Hall & Hok & Hsch & Hatt).
        split.
        { intros k Hk. destruct (decide (k = i)) as [->|Hne]; [done|].
          apply Hall. lia. }
        split; [done|]. split; [by rewrite Hsch|by rewrite Hatt].
Qed.

(** C7. Registration makes at most 40 calls of the master, and the worker
    pauses 250 ms after every call that fails, so that two calls in a row
    are one such pause apart; the calls stop at the first one that succeeds,
    and the worker is then left as it was; when all 40 calls fail the worker
    shuts down: it is no longer active and its listener is closed. *)
Theorem RegisterWithServer_retries (callMaster : Z -> bool) (w : Worker) :
  let result := RegisterWithServer callMaster w in
  (attempts result.2 <= 40)%nat /\
  match firstSuccess callMaster 0 40 with
  | Some j =>
      0 <= j < 40 /\ callMaster j = true /\
      (forall k, 0 <= k < j -> callMaster k = false) /\
      schedule result.2 =
        failedRounds (address w) (Z.to_nat j) ++ [CallMaster "Register" (address w)] /\
      attempts result.2 = S (Z.to_nat j) /\
      result.1 = w /\
      CloseListener ∉ result.2
  | None =>
      (forall k, 0 <= k < 40 -> callMaster k = false) /\
      schedule result.2 = failedRounds (address w) 40 /\
      attempts result.2 = 40%nat /\
      active result.1 = 0 /\ rpcListener result.1 = false /\
      IsActive result.1 = false /\
      CloseListener ∈ result.2
  end.
Proof.
  intros result. subst result. unfold RegisterWithServer.
  pose proof (registerLoop_spec callMaster (address w) 40 0) as Hloop.
  cbn zeta in Hloop.
  destruct (registerLoop callMaster (address w) 0 40 false) as [ok tr].
  cbn [fst snd] in Hloop. destruct Hloop as [Hclose Hloop].
  destruct (firstSuccess callMaster 0 40) as [j|].
  - destruct Hloop as (Hj & Hcj & Hbefore & -> & Hsch & Hatt).
    cbn [fst snd]. rewrite Z.sub_0_r in Hsch, Hatt.
    rewrite schedule_app, attempts_app, Hsch, Hatt.
    rewrite schedule_cons, attempts_cons. cbn [isCall isSleep orb].
    change (schedule []) with (@nil event). change (attempts []) with 0%nat.
    rewrite app_nil_r, Nat.add_0_r.
    split; [lia|]. split; [lia|]. split; [done|]. split; [done|].
    split; [done|]. split; [done|]. split; [done|].
    rewrite elem_of_app. intros [Hin|Hin]; [done|].
    apply list_elem_of_In in Hin. simpl in Hin.
    destruct Hin as [Hin|Hin]; [discriminate Hin|done].
  - destruct Hloop as (Hall & -> & Hsch & Hatt).
    cbn [fst snd Shutdown].
    rewrite !schedule_app, !attempts_app, Hsch, Hatt.
    split; [vm_compute; lia|]. split; [done|].
    split; [by rewrite app_nil_r|]. split; [done|].
    split; [done|]. split; [done|]. split; [done|].
    rewrite !elem_of_app. right. right.
    apply list_elem_of_In. simpl. tauto.
Qed.

(** ** Scheduler: the barrier between the phases *)

Lemma allCompleted_Forall ts :
  allCompleted ts = true <-> Forall (fun st => st = Completed) ts.
Proof.
  unfold allCompleted. induction ts as [|st ts IH]; simpl.
  - split; [constructor|done].
  - rewrite andb_true_iff, IH, Forall_cons, bool_decide_eq_true. tauto.
Qed.

Lemma barrier_init numMappers numReducers :
  barrier (initScheduler numMappers numReducers).
Proof.
  split; simpl; [intros _|done]. split.
  - apply Forall_replicate. done.
  - apply Forall_fmap, Forall_forall. done.
Qed.

(** In the map phase a task that is not Idle is a map task; later, a task
    that is not Completed is a reduce task. *)
Lemma barrier_task_kind s t st :
  barrier s -> taskState s t = Some st ->
  (phase s = MapPhase -> st <> Idle -> isMapTask t = true) /\
  (phase s <> MapPhase -> st <> Completed -> isReduceTask t = true).
Proof.
  intros [Hmap Hred] Hst. split.
  - intros Hph Hne. destruct t as [i|i]; [done|]. simpl in Hst.
    destruct (Hmap Hph) as [Hidle _].
    rewrite Forall_lookup in Hidle. by apply Hidle in Hst.
  - intros Hph Hne. destruct t as [i|i]; [|done]. simpl in Hst.
    destruct (Hred Hph) as [Hdone _].
    rewrite Forall_lookup in Hdone. by apply Hdone in Hst.
Qed.

Lemma barrier_setTask s t st :
  barrier s ->
  (phase s = MapPhase -> isMapTask t = true) ->
  (phase s <> MapPhase -> isReduceTask t = true) ->
  barrier (setTask s t st).
Proof.
  intros [Hmap Hred] Hk1 Hk2. destruct t as [i|i]; split; simpl; intros Hph.
  - by apply Hmap.
  - by specialize (Hk2 Hph).
  - by specialize (Hk1 Hph).
  - by apply Hred.
Qed.

Lemma barrier_setWorker s addr ws : barrier s -> barrier (setWorker s addr ws).
Proof. by intros [Hmap Hred]. Qed.

Lemma barrier_setQueue s q :
  barrier s ->
  (phase s = MapPhase -> Forall (fun t => isMapTask t = true) q) ->
  (phase s <> MapPhase -> Forall (fun t => isReduceTask t = true) q) ->
  barrier (setQueue s q).
Proof.
  intros [Hmap Hred] Hq1 Hq2. split; simpl; intros Hph.
  - split; [by apply Hmap|by apply Hq1].
  - split; [by apply Hred|by apply Hq2].
Qed.

Lemma barrier_queue_head s t q :
  barrier s -> queue s = t :: q ->
  (phase s = MapPhase -> isMapTask t = true /\ Forall (fun t => isMapTask t = true) q) /\
  (phase s <> MapPhase ->
     isReduceTask t = true /\ Forall (fun t => isReduceTask t = true) q).
Proof.
  intros [Hmap Hred] Hq. split; intros Hph.
  - destruct (Hmap Hph) as [_ Hall]. rewrite Hq in Hall.
    by apply Forall_cons in Hall.
  - destruct (Hred Hph) as [_ Hall]. rewrite Hq in Hall.
    by apply Forall_cons in Hall.
Qed.

(** Every transition keeps the barrier. *)
Lemma barrier_step s a s' : barrier s -> step s a = Some s' -> barrier s'.
Proof.
  intros Hb Hstep. destruct a as [addr|addr|t|t|]; simpl in Hstep.
  - injection Hstep as <-. by apply barrier_setWorker.
  - destruct (workers s !! addr) as [[| |]|]; try done.
    destruct (queue s) as [|t q] eqn:Hq; [done|].
    destruct (taskState s t) as [[| |]|] eqn:Hst; try done.
    injection Hstep as <-.
    destruct (barrier_queue_head s t q Hb Hq) as [Hh1 Hh2].
    apply barrier_setWorker, barrier_setTask.
    + apply barrier_setQueue; [done|intros Hph; by apply Hh1|intros Hph; by apply Hh2].
    + intros Hph. by apply Hh1.
    + intros Hph. by apply Hh2.
  - destruct (taskState s t) as [[|addr|]|] eqn:Hst; try done.
    injection Hstep as <-.
    destruct (barrier_task_kind s t _ Hb Hst) as [Hk1 Hk2].
    apply barrier_setWorker, barrier_setTask; [done| |].
    + intros Hph. by apply Hk1.
    + intros Hph. by apply Hk2.
  - destruct (taskState s t) as [[|addr|]|] eqn:Hst; try done.
    injection Hstep as <-.
    destruct (barrier_task_kind s t _ Hb Hst) as [Hk1 Hk2].
    destruct Hb as [Hmap Hred].
    assert (barrier (setWorker (setTask s t Idle) addr Dead)) as Hb'.
    { apply barrier_setWorker, barrier_setTask; [by split| |].
      - intros Hph. by apply Hk1.
      - intros Hph. by apply Hk2. }
    apply barrier_setQueue; [done| |]; simpl.
    + destruct t; simpl; intros Hph; apply Forall_app; split.
      * by apply Hmap.
      * by repeat constructor.
      * by apply Hmap.
      * specialize (Hk1 Hph). by discriminate Hk1.
    + destruct t; simpl; intros Hph; apply Forall_app; split.
      * by apply Hred.
      * specialize (Hk2 Hph). by discriminate Hk2.
      * by apply Hred.
      * by repeat constructor.
  - destruct (phase s) eqn:Hph; [| |done].
    + destruct (allCompleted (mapTasks s)) eqn:Hall; [|done].
      injection Hstep as <-. split; simpl; [done|intros _]. split.
      * by apply allCompleted_Forall.
      * apply Forall_fmap, Forall_forall. done.
    + destruct (allCompleted (reduceTasks s)) eqn:Hall; [|done].
      injection Hstep as <-. split; simpl; [done|intros _]. split; [|done].
      destruct Hb as [_ Hred]. apply Hred. by rewrite Hph.
Qed.

Lemma barrier_run acts : forall s s',
  barrier s -> run s acts = Some s' -> barrier s'.
Proof.
  induction acts as [|a acts IH]; intros s s' Hb Hrun; simpl in Hrun.
  - by injection Hrun as <-.
  - destruct (step s a) as [s1|] eqn:Hstep; [|done].
    eapply IH; [|done]. by eapply barrier_step.
Qed.

(** C2. In every state that a run of the scheduler reaches, an action that
    sends out the RPC of a reduce task finds every map task Completed: none
    is Idle or InProgress.  More generally no reduce task has left the Idle
    state while a map task is not Completed. *)
Theorem reduce_dispatch_after_map_barrier numMappers numReducers acts s :
  run (initScheduler numMappers numReducers) acts = Some s ->
  (forall a r, rpcDispatched s a = Some (ReduceTask r) ->
     forall i st, mapTasks s !! i = Some st -> st = Completed) /\
  (forall r st, reduceTasks s !! r = Some st -> st <> Idle ->
     forall i st', mapTasks s !! i = Some st' -> st' = Completed).
Proof.
  intros Hrun.
  assert (barrier s) as Hb by (eapply barrier_run; [apply barrier_init|done]).
  destruct Hb as [Hmap Hred]. split.
  - intros a r Hd i st Hi. unfold rpcDispatched in Hd.
    destruct a as [addr|addr|t|t|]; try done.
    destruct (step s (Dispatch addr)); [|done].
    destruct (queue s) as [|t q] eqn:Hq; [done|]. injection Hd as ->.
    destruct (decide (phase s = MapPhase)) as [Hph|Hph].
    + destruct (Hmap Hph) as [_ Hall].
      apply Forall_cons in Hall as [Hk _]. done.
    + destruct (Hred Hph) as [Hdone _]. rewrite Forall_lookup in Hdone.
      by eapply Hdone.
  - intros r st Hr Hne i st' Hi.
    destruct (decide (phase s = MapPhase)) as [Hph|Hph].
    + destruct (Hmap Hph) as [Hidle _]. rewrite Forall_lookup in Hidle.
      by apply Hidle in Hr.
    + destruct (Hred Hph) as [Hdone _]. rewrite Forall_lookup in Hdone.
      by eapply Hdone.
Qed.

Lemma reduce_dispatch_after_map_barrier_witness :
  rpcDispatched SchedulerExample.mapsDone (Dispatch "w1") = Some (ReduceTask 0) /\
  Forall (fun st => st = Completed) (mapTasks SchedulerExample.mapsDone).
Proof.
  split; [vm_compute; reflexivity|].
  apply Forall_lookup. intros i st.
  apply (reduce_dispatch_after_map_barrier 1 1 SchedulerExample.mapRun
           SchedulerExample.mapsDone ltac:(vm_compute; reflexivity))
    with (a := Dispatch "w1") (r := 0%nat).
  vm_compute; reflexivity.
Defined.

(** ** Merge *)

Lemma keyLe_trans : Transitive keyLe.
Proof. intros a b c. unfold keyLe. apply transitivity. Qed.

Lemma keyLe_total : Total keyLe.
Proof. intros a b. unfold keyLe. apply total, _. Qed.

Lemma pairOf_Some r kv : pairOf r = Some kv <-> r = Encoded kv.
Proof. destruct r; simpl; split; congruence. Qed.

Section MergeFacts.

Variable ReduceOutputName : string -> Z -> string.
Variable mergeName : string -> string.

Lemma readOutputs_spec job fs remaining : forall r0,
  (forall i, (i < remaining)%nat ->
     is_Some (fs !! ReduceOutputName job (r0 + Z.of_nat i))) ->
  exists kvs,
    readOutputs ReduceOutputName job r0 remaining fs = Done kvs /\
    forall kv, kv ∈ kvs <->
      exists i recs, (i < remaining)%nat /\
        fs !! ReduceOutputName job (r0 + Z.of_nat i) = Some recs /\
        Encoded kv ∈ recs.
Proof.
  induction remaining as [|n IH]; intros r0 Hfiles.
  - exists []. split; [done|]. intros kv. split.
    + intros Hin. by apply elem_of_nil in Hin.
    + intros (i & _ & Hi & _). lia.
  - destruct (Hfiles 0%nat) as [recs Hrecs]; [lia|].
    rewrite Z.add_0_r in Hrecs. cbn [readOutputs]. rewrite Hrecs.
    destruct (IH (r0 + 1)) as (rest & -> & Hrest).
    { intros i Hi. replace (r0 + 1 + Z.of_nat i) with (r0 + Z.of_nat (S i)) by lia.
      apply Hfiles. lia. }
    exists (omap pairOf recs ++ rest). split; [done|].
    intros kv. rewrite elem_of_app, list_elem_of_omap, Hrest. split.
    + intros [(rec & Hin & Hp)|(i & recs' & Hi & Hl & Hin)].
      * apply pairOf_Some in Hp as ->. exists 0%nat, recs.
        rewrite Z.add_0_r. split; [lia|done].
      * exists (S i), recs'. split; [lia|]. split; [|done].
        by replace (r0 + Z.of_nat (S i)) with (r0 + 1 + Z.of_nat i) by lia.
    + intros (i & recs' & Hi & Hl & Hin). destruct i as [|i].
      * left. rewrite Z.add_0_r in Hl. exists (Encoded kv).
        split; [congruence|done].
      * right. exists i, recs'. split; [lia|]. split; [|done].
        by replace (r0 + 1 + Z.of_nat i) with (r0 + Z.of_nat (S i)) by lia.
Qed.

(** Reading the outputs looks at the output files of the reducers only. *)
Lemma readOutputs_insert job fs name recs remaining : forall r0,
  (forall i, (i < remaining)%nat -> name <> ReduceOutputName job (r0 + Z.of_nat i)) ->
  readOutputs ReduceOutputName job r0 remaining (<[name := recs]> fs) =
  readOutputs ReduceOutputName job r0 remaining fs.
Proof.
  induction remaining as [|n IH]; intros r0 Hne; [done|].
  cbn [readOutputs]. rewrite lookup_insert_ne.
  2:{ specialize (Hne 0%nat). rewrite Z.add_0_r in Hne. apply Hne. lia. }
  rewrite IH; [done|].
  intros i Hi. replace (r0 + 1 + Z.of_nat i) with (r0 + Z.of_nat (S i)) by lia.
  apply Hne. lia.
Qed.

(** C3. When the output files of the [numReducers] reducers are there,
    merge returns the path of the merged file, which it writes with entries
    sorted by key in ascending byte-wise order, one entry for every key of
    a record of a reducer output and no other, each entry being a pair of
    some reducer output; a second merge, with no write in between, writes
    the same file again. *)
Theorem merge_sorted_one_entry_per_key job numReducers fs :
  (forall r, 0 <= r < numReducers ->
     is_Some (fs !! ReduceOutputName job r)) ->
  (forall r, 0 <= r < numReducers -> mergeName job <> ReduceOutputName job r) ->
  exists entries,
    let merged := <[mergeName job := Encoded <$> entries]> fs in
    merge ReduceOutputName mergeName job numReducers fs =
      Done (mergeName job, merged) /\
    StronglySorted keyLe entries /\
    NoDup (Key <$> entries) /\
    (forall key, key ∈ Key <$> entries <->
       exists value,
         inOutputs ReduceOutputName job numReducers fs (mkKeyValue key value)) /\
    (forall kv, kv ∈ entries ->
       inOutputs ReduceOutputName job numReducers fs kv) /\
    merge ReduceOutputName mergeName job numReducers merged =
      Done (mergeName job, merged).
Proof.
  intros Hfiles Hname.
  destruct (readOutputs_spec job fs (Z.to_nat numReducers) 0) as (kvs & Hread & Hkvs).
  { intros i Hi. rewrite Z.add_0_l. apply Hfiles. lia. }
  assert (forall kv, kv ∈ kvs <-> inOutputs ReduceOutputName job numReducers fs kv)
    as Hin.
  { intros kv. rewrite Hkvs. unfold inOutputs. split.
    - intros (i & recs & Hi & Hl & He). exists (Z.of_nat i), recs.
      rewrite Z.add_0_l in Hl. split; [lia|done].
    - intros (r & recs & Hr & Hl & He). exists (Z.to_nat r), recs.
      rewrite Z.add_0_l, Z2Nat.id by lia. split; [lia|done]. }
  set (combined := list_to_map ((fun kv => (Key kv, Value kv)) <$> kvs)
                   : gmap string string).
  set (entries := merge_sort keyLe
         ((fun p : string * string => mkKeyValue p.1 p.2) <$> map_to_list combined)).
  assert (entries ≡ₚ (fun p : string * string => mkKeyValue p.1 p.2)
                       <$> map_to_list combined) as Hperm
    by apply merge_sort_Permutation.
  assert (Key <$> entries ≡ₚ (map_to_list combined).*1) as Hkeys.
  { rewrite Hperm, <- list_fmap_compose.
    by erewrite list_fmap_ext; [reflexivity|]. }
  assert (forall kv, kv ∈ entries -> kv ∈ kvs) as Hsub.
  { intros kv. rewrite Hperm, list_elem_of_fmap.
    intros ([k v] & -> & Hp). apply elem_of_map_to_list in Hp.
    apply elem_of_list_to_map_2, list_elem_of_fmap in Hp as (kv & Heq & Hkv).
    simpl. injection Heq as -> ->. by destruct kv. }
  exists entries. cbn zeta. split; [|split; [|split; [|split; [|split]]]].
  - unfold merge. rewrite Hread. done.
  - apply (@StronglySorted_merge_sort _ keyLe _ keyLe_trans keyLe_total).
  - rewrite Hkeys. apply NoDup_fst_map_to_list.
  - intros key. rewrite Hkeys. split.
    + intros Hk. apply list_elem_of_fmap in Hk as ([k v] & -> & Hp).
      apply elem_of_map_to_list, elem_of_list_to_map_2, list_elem_of_fmap in Hp
        as (kv & Heq & Hkv).
      injection Heq as -> ->. exists (Value kv). apply Hin. by destruct kv.
    + intros (value & Ho). apply Hin in Ho.
      destruct (combined !! key) as [v|] eqn:Hc.
      * apply elem_of_map_to_list in Hc. apply list_elem_of_fmap.
        by exists (key, v).
      * apply not_elem_of_list_to_map_2 in Hc. destruct Hc.
        rewrite <- list_fmap_compose. apply list_elem_of_fmap.
        by exists (mkKeyValue key value).
  - intros kv Hkv. by apply Hin, Hsub.
  - unfold merge. rewrite readOutputs_insert.
    + rewrite Hread. simpl. fold combined. fold entries.
      by rewrite insert_insert_eq.
    + intros i Hi. rewrite Z.add_0_l. apply Hname. lia.
Qed.

End MergeFacts.

Lemma merge_sorted_one_entry_per_key_witness :
  returns (merge Example.reduceOutputName Example.mergedName "pagerank" 2
             MergeExample.reducedFiles).
Proof.
  destruct (merge_sorted_one_entry_per_key Example.reduceOutputName
              Example.mergedName "pagerank" 2 MergeExample.reducedFiles)
    as (entries & Hrun & _).
  - intros r Hr. assert (r = 0 \/ r = 1) as [-> | ->] by lia.
    + exists [Encoded (mkKeyValue "C" "0.5"); Encoded (mkKeyValue "A" "1")].
      vm_compute; reflexivity.
    + exists [Encoded (mkKeyValue "B" "1.5")]. vm_compute; reflexivity.
  - intros r Hr. assert (r = 0 \/ r = 1) as [-> | ->] by lia;
      vm_compute; discriminate.
  - cbn zeta in Hrun. rewrite Hrun. exact I.
Defined.

(** The merged file of the example, entry by entry. *)
Lemma merge_example :
  merge Example.reduceOutputName Example.mergedName "pagerank" 2
    MergeExample.reducedFiles =
  Done (Example.mergedName "pagerank",
        <[Example.mergedName "pagerank" := Encoded <$> MergeExample.mergedEntries]>
          MergeExample.reducedFiles).
Proof. vm_compute; reflexivity. Qed.

(** * Further properties of the code *)

(** ** File names across jobs *)

Lemma all_digits_no_dash a b : ~ all_digits (a +:+ String "-" b).
Proof.
  induction a as [|c a IH]; rewrite ?append_nil, ?append_cons; simpl.
  - intros [Hd _]. by apply dash_not_digit.
  - intros [_ Hd]. by apply IH.
Qed.

(** A text is cut in one way only at its last separator that is followed by
    digits alone. *)
Lemma dash_digits_split s1 : forall s2 d1 d2,
  all_digits d1 -> all_digits d2 ->
  s1 +:+ String "-" d1 = s2 +:+ String "-" d2 -> s1 = s2 /\ d1 = d2.
Proof.
  induction s1 as [|c1 s1 IH]; intros [|c2 s2] d1 d2 H1 H2 Heq;
    rewrite ?append_cons, ?append_nil in Heq.
  - by injection Heq as ->.
  - injection Heq as <- ->. by apply all_digits_no_dash in H1.
  - injection Heq as -> <-. by apply all_digits_no_dash in H2.
  - injection Heq as -> Heq. by destruct (IH s2 d1 d2 H1 H2 Heq) as [-> ->].
Qed.

Lemma Itoa_nonneg_digits n : 0 <= n -> all_digits (Itoa n).
Proof.
  intros Hn. unfold Itoa, pretty, pretty_Z. destruct n as [|p|p]; [| |lia].
  - split; [apply (pretty_N_char_digit 0)|done].
  - apply (pretty_N_digits (N.pos p)).
Qed.

Lemma reduceInputName_unfold_right DataOutputDir jobName m r :
  reduceInputName DataOutputDir jobName m r =
  (((DataOutputDir +:+ "mr.") +:+ jobName) +:+ String "-" (Itoa m))
    +:+ String "-" (Itoa r).
Proof. unfold reduceInputName. by rewrite !append_assoc. Qed.

(** X1. With indices that are not negative, as the worker's unsigned ones
    are, the name of a partition file determines the job name too: two
    names are equal only for the same job, mapper and reducer.  A negative
    mapper index breaks this: the job "x" with mapper -1 and the job "x-"
    with mapper 1 share the name of their file for reducer 2. *)
Theorem reduceInputName_injective_in_job DataOutputDir job1 m1 r1 job2 m2 r2 :
  0 <= m1 -> 0 <= r1 -> 0 <= m2 -> 0 <= r2 ->
  reduceInputName DataOutputDir job1 m1 r1 =
  reduceInputName DataOutputDir job2 m2 r2 ->
  job1 = job2 /\ m1 = m2 /\ r1 = r2.
Proof.
  intros Hm1 Hr1 Hm2 Hr2. rewrite !reduceInputName_unfold_right. intros Heq.
  apply dash_digits_split in Heq as [Heq Hr]; [|by apply Itoa_nonneg_digits..].
  apply dash_digits_split in Heq as [Heq Hm]; [|by apply Itoa_nonneg_digits..].
  apply (inj (String.app _)) in Heq.
  split; [done|]. split; by apply Itoa_inj.
Qed.

Lemma reduceInputName_injective_in_job_witness :
  reduceInputName Example.outDir "pagerank" 3 4 =
  reduceInputName Example.outDir "pagerank" 3 4 /\
  "pagerank" = "pagerank" /\ 3 = 3 /\ 4 = 4.
Proof.
  split; [reflexivity|].
  apply (reduceInputName_injective_in_job Example.outDir "pagerank" 3 4
           "pagerank" 3 4); (lia || reflexivity).
Defined.

(** The two jobs of which X1 speaks. *)
Lemma reduceInputName_negative_index_collision :
  reduceInputName Example.outDir "x" (-1) 2 =
  reduceInputName Example.outDir "x-" 1 2.
Proof. vm_compute; reflexivity. Qed.

(** ** DoMap: further properties *)

Section DoMapMore.

Variable DataOutputDir : string.
Variable ihash : string -> Z.

(** A run of [DoMap] that returns has read its input, and either divides
    by a modulus that is not zero or has nothing to divide. *)
Lemma DoMap_Done_inv (w : Worker) inputs inputFileName m n fs fs' :
  DoMap DataOutputDir ihash w inputs inputFileName m n fs = Done fs' ->
  exists content,
    inputs !! inputFileName = Some content /\
    (to_uint32 n <> 0 \/ mapF w inputFileName content = []).
Proof.
  intros Hrun. destruct (inputs !! inputFileName) as [content|] eqn:Hin.
  2:{ unfold DoMap in Hrun. by rewrite Hin in Hrun. }
  exists content. split; [done|].
  destruct (decide (to_uint32 n = 0)) as [Hd|Hd]; [|by left]. right.
  destruct (mapF w inputFileName content) as [|kv kvs] eqn:Hkvs; [done|].
  rewrite (DoMap_divide_by_zero DataOutputDir ihash w inputs inputFileName
             content m n fs) in Hrun; [done|done|done|].
  by rewrite Hkvs.
Qed.

(** Whether a name is that of a partition file of mapper [m]. *)
Lemma partition_name_cases job m (n : Z) (name : string) :
  (exists r, 0 <= r < n /\ name = reduceInputName DataOutputDir job m r) \/
  (forall r, 0 <= r < n -> name <> reduceInputName DataOutputDir job m r).
Proof.
  destruct (decide (0 <= n)) as [Hn|Hn]; [|right; intros r Hr; lia].
  rewrite <- (Z2Nat.id n Hn). generalize (Z.to_nat n). clear Hn.
  intros k. induction k as [|k IH]; [right; intros r Hr; lia|].
  destruct IH as [(r & Hr & ->)|IH]; [left; exists r; split; [lia|done]|].
  destruct (decide (name = reduceInputName DataOutputDir job m (Z.of_nat k)))
    as [->|Hne].
  - left. exists (Z.of_nat k). split; [lia|done].
  - right. intros r Hr. destruct (decide (r = Z.of_nat k)) as [->|Hrk]; [done|].
    apply IH. lia.
Qed.

Lemma emittedFor_cons n kv kvs r :
  emittedFor ihash n (kv :: kvs) r =
  if decide (ihash (Key kv) mod to_uint32 n = r)
  then kv :: emittedFor ihash n kvs r else emittedFor ihash n kvs r.
Proof. unfold emittedFor. rewrite filter_cons. by case_decide. Qed.

(** One more pair of slot [r0] makes the files, taken together, one pair
    longer. *)
Lemma concat_emittedFor_cons n kv kvs (L : list Z) :
  NoDup L ->
  concat ((emittedFor ihash n (kv :: kvs)) <$> L) ≡ₚ
  (if decide (ihash (Key kv) mod to_uint32 n ∈ L) then [kv] else [])
  ++ concat ((emittedFor ihash n kvs) <$> L).
Proof.
  induction 1 as [|r L Hr Hnd IH].
  { by rewrite decide_False by apply not_elem_of_nil. }
  rewrite !fmap_cons. cbn [concat]. rewrite IH, emittedFor_cons.
  destruct (decide (ihash (Key kv) mod to_uint32 n = r)) as [Heq|Hne].
  - rewrite (decide_True (P := _ ∈ r :: L)) by (rewrite Heq; left).
    rewrite (decide_False (P := _ ∈ L)) by (by rewrite Heq).
    done.
  - case_decide as Hin.
    + rewrite (decide_True (P := _ ∈ r :: L)) by (by right).
      simpl. by rewrite Permutation_middle.
    + rewrite (decide_False (P := _ ∈ r :: L)); [done|].
      intros Hc. apply elem_of_cons in Hc as [Hc|Hc]; done.
Qed.

Lemma concat_emittedFor n kvs :
  0 <= n -> to_uint32 n <> 0 ->
  concat ((emittedFor ihash n kvs) <$> seqZ 0 n) ≡ₚ kvs.
Proof.
  intros Hn Hd. induction kvs as [|kv kvs IH].
  - induction (seqZ 0 n) as [|r L IHL]; [done|]. by rewrite fmap_cons.
  - rewrite concat_emittedFor_cons by apply NoDup_seqZ.
    rewrite decide_True; [by rewrite IH|].
    apply elem_of_seqZ.
    pose proof (Z.mod_pos_bound (ihash (Key kv)) (to_uint32 n)).
    pose proof (to_uint32_range n). pose proof (to_uint32_le n Hn). lia.
Qed.

(** X2. A run of [DoMap] that returns loses no pair and writes none twice:
    the pairs it adds to the partition files of reducers 0 to
    [numReducers - 1], taken together, are the emitted pairs, each as often
    as the map function emitted it. *)
Theorem DoMap_conserves_pairs (w : Worker) inputs inputFileName m n fs fs' :
  0 <= n ->
  DoMap DataOutputDir ihash w inputs inputFileName m n fs = Done fs' ->
  exists content (added : Z -> list KeyValue),
    inputs !! inputFileName = Some content /\
    (forall r, 0 <= r < n ->
       fs' !! reduceInputName DataOutputDir (jobName w) m r =
       Some (default [] (fs !! reduceInputName DataOutputDir (jobName w) m r)
             ++ (Encoded <$> added r))) /\
    concat (added <$> seqZ 0 n) ≡ₚ mapF w inputFileName content.
Proof.
  intros Hn Hrun.
  destruct (DoMap_Done_inv w inputs inputFileName m n fs fs' Hrun)
    as (content & Hin & Hcase).
  destruct (DoMap_general DataOutputDir ihash w inputs inputFileName content m n fs)
    as (fs1 & Hrun1 & Hget & _); [done..|].
  assert (fs1 = fs') as -> by congruence.
  exists content, (emittedFor ihash n (mapF w inputFileName content)).
  split; [done|]. split; [done|].
  destruct Hcase as [Hd|Hnil]; [by apply concat_emittedFor|].
  rewrite Hnil. induction (seqZ 0 n) as [|r L IHL]; [done|]. by rewrite fmap_cons.
Qed.

(** X3. [DoMap] appends: running the same map task again on what the first
    run left adds the same records a second time to every partition file,
    behind the first copy. *)
Theorem DoMap_twice_appends_twice (w : Worker) inputs inputFileName m n fs fs1 :
  0 <= n ->
  DoMap DataOutputDir ihash w inputs inputFileName m n fs = Done fs1 ->
  exists content fs2,
    inputs !! inputFileName = Some content /\
    DoMap DataOutputDir ihash w inputs inputFileName m n fs1 = Done fs2 /\
    forall r, 0 <= r < n ->
      let added := Encoded <$> emittedFor ihash n (mapF w inputFileName content) r in
      fs2 !! reduceInputName DataOutputDir (jobName w) m r =
      Some (default [] (fs !! reduceInputName DataOutputDir (jobName w) m r)
            ++ added ++ added).
Proof.
  intros Hn Hrun.
  destruct (DoMap_Done_inv w inputs inputFileName m n fs fs1 Hrun)
    as (content & Hin & Hcase).
  destruct (DoMap_general DataOutputDir ihash w inputs inputFileName content m n fs)
    as (fs1' & Hrun1 & Hget1 & _); [done..|].
  assert (fs1' = fs1) as -> by congruence.
  destruct (DoMap_general DataOutputDir ihash w inputs inputFileName content m n fs1)
    as (fs2 & Hrun2 & Hget2 & _); [done..|].
  exists content, fs2. split; [done|]. split; [done|].
  intros r Hr added. rewrite (Hget2 r Hr), (Hget1 r Hr). simpl.
  by rewrite <- app_assoc.
Qed.

(** X4. Two map tasks of one job with different mapper indices do not
    disturb each other: run in either order from the same file system, they
    both return and leave the same file system. *)
Theorem DoMap_tasks_commute (w1 w2 : Worker) inputs file1 file2 m1 m2 n1 n2
    fs fs1 fs12 :
  jobName w1 = jobName w2 -> m1 <> m2 -> 0 <= n1 -> 0 <= n2 ->
  DoMap DataOutputDir ihash w1 inputs file1 m1 n1 fs = Done fs1 ->
  DoMap DataOutputDir ihash w2 inputs file2 m2 n2 fs1 = Done fs12 ->
  exists fs2,
    DoMap DataOutputDir ihash w2 inputs file2 m2 n2 fs = Done fs2 /\
    DoMap DataOutputDir ihash w1 inputs file1 m1 n1 fs2 = Done fs12.
Proof.
  intros Hjob Hm Hn1 Hn2 Hrun1 Hrun12.
  destruct (DoMap_Done_inv w1 inputs file1 m1 n1 fs fs1 Hrun1)
    as (c1 & Hin1 & Hcase1).
  destruct (DoMap_Done_inv w2 inputs file2 m2 n2 fs1 fs12 Hrun12)
    as (c2 & Hin2 & Hcase2).
  destruct (DoMap_general DataOutputDir ihash w1 inputs file1 c1 m1 n1 fs)
    as (fs1' & Ha & Hget1 & Hoth1); [done..|].
  assert (fs1' = fs1) as -> by congruence. clear Ha.
  destruct (DoMap_general DataOutputDir ihash w2 inputs file2 c2 m2 n2 fs1)
    as (fs12' & Ha & Hget12 & Hoth12); [done..|].
  assert (fs12' = fs12) as -> by congruence. clear Ha.
  destruct (DoMap_general DataOutputDir ihash w2 inputs file2 c2 m2 n2 fs)
    as (fs2 & Hrun2 & Hget2 & Hoth2); [done..|].
  destruct (DoMap_general DataOutputDir ihash w1 inputs file1 c1 m1 n1 fs2)
    as (fs21 & Hrun21 & Hget21 & Hoth21); [done..|].
  exists fs2. split; [done|]. rewrite Hrun21. f_equal.
  apply map_eq. intros name.
  assert (forall r r', reduceInputName DataOutputDir (jobName w1) m1 r <>
                       reduceInputName DataOutputDir (jobName w2) m2 r') as Hdiff.
  { intros r r' Heq. rewrite Hjob in Heq.
    apply reduceInputName_inj in Heq as [Heq _]. done. }
  destruct (partition_name_cases (jobName w1) m1 n1 name) as [(r & Hr & ->)|Hno1].
  - rewrite (Hget21 r Hr), (Hoth2 _ (fun r' _ => Hdiff r r')).
    rewrite (Hoth12 _ (fun r' _ => Hdiff r r')). by rewrite (Hget1 r Hr).
  - rewrite (Hoth21 name Hno1).
    destruct (partition_name_cases (jobName w2) m2 n2 name) as [(r & Hr & ->)|Hno2].
    + rewrite (Hget2 r Hr), (Hget12 r Hr). by rewrite (Hoth1 _ Hno1).
    + rewrite (Hoth2 name Hno2), (Hoth12 name Hno2). by rewrite (Hoth1 name Hno1).
Qed.

End DoMapMore.

Lemma DoMap_conserves_pairs_witness :
  exists added : Z -> list KeyValue,
    concat (added <$> seqZ 0 2) ≡ₚ Example.threePairs "in0" "A: 1.0, B, C".
Proof.
  assert (DoMap Example.outDir fnv32a (Example.worker Example.threePairs)
            Example.inputs "in0" 0 2 ∅ = Done RunExample.afterMap0) as Hrun
    by (vm_compute; reflexivity).
  assert (0 <= 2) as Hn by lia.
  destruct (DoMap_conserves_pairs Example.outDir fnv32a
              (Example.worker Example.threePairs) Example.inputs "in0" 0 2 ∅
              RunExample.afterMap0 Hn Hrun)
    as (content & added & _ & _ & Hperm).
  exists added. exact Hperm.
Defined.

Lemma DoMap_twice_appends_twice_witness :
  exists fs2,
    DoMap Example.outDir fnv32a (Example.worker Example.threePairs)
      Example.inputs "in0" 0 2 RunExample.afterMap0 = Done fs2.
Proof.
  assert (DoMap Example.outDir fnv32a (Example.worker Example.threePairs)
            Example.inputs "in0" 0 2 ∅ = Done RunExample.afterMap0) as Hrun
    by (vm_compute; reflexivity).
  assert (0 <= 2) as Hn by lia.
  destruct (DoMap_twice_appends_twice Example.outDir fnv32a
              (Example.worker Example.threePairs) Example.inputs "in0" 0 2 ∅
              RunExample.afterMap0 Hn Hrun)
    as (content & fs2 & _ & Hrun2 & _).
  exists fs2. exact Hrun2.
Defined.

Lemma DoMap_tasks_commute_witness :
  exists fs2,
    DoMap Example.outDir fnv32a (Example.worker Example.onePair)
      Example.inputs "in0" 1 2 ∅ = Done fs2 /\
    DoMap Example.outDir fnv32a (Example.worker Example.threePairs)
      Example.inputs "in0" 0 2 fs2 = Done RunExample.afterMap01.
Proof.
  apply (DoMap_tasks_commute Example.outDir fnv32a
           (Example.worker Example.threePairs) (Example.worker Example.onePair)
           Example.inputs "in0" "in0" 0 1 2 2 ∅ RunExample.afterMap0
           RunExample.afterMap01).
  - reflexivity.
  - lia.
  - lia.
  - lia.
  - vm_compute; reflexivity.
  - vm_compute; reflexivity.
Defined.

(** ** The shuffle: DoMap and DoReduce together *)

Lemma decodedPrefix_subset recs kv : kv ∈ decodedPrefix recs -> Encoded kv ∈ recs.
Proof.
  induction recs as [|[kv'|] recs IH]; simpl; intros Hin.
  - by apply elem_of_nil in Hin.
  - apply elem_of_cons in Hin as [->|Hin]; [left|right; by apply IH].
  - by apply elem_of_nil in Hin.
Qed.

Lemma valuesOf_filter (P : KeyValue -> Prop) `{!forall kv, Decision (P kv)} key kvs :
  (forall kv, Key kv = key -> P kv) ->
  valuesOf key (filter P kvs) = valuesOf key kvs.
Proof.
  intros HP. unfold valuesOf. f_equal. rewrite list_filter_filter.
  apply list_filter_iff. intros kv. split; [by intros [? _]|].
  intros Hk. split; [done|by apply HP].
Qed.

Lemma valuesOf_filter_none (P : KeyValue -> Prop) `{!forall kv, Decision (P kv)}
    key kvs :
  (forall kv, Key kv = key -> ~ P kv) ->
  valuesOf key (filter P kvs) = [].
Proof.
  intros HP. apply valuesOf_nil_iff. intros Hin.
  apply list_elem_of_fmap in Hin as (kv & -> & Hkv).
  apply list_elem_of_filter in Hkv as [Hkv _]. by apply (HP kv).
Qed.

Section Shuffle.

Variable DataOutputDir : string.
Variable ReduceOutputName : string -> Z -> string.
Variable ihash : string -> Z.

Lemma pairsRead_subset job r fs remaining : forall m0 kv,
  kv ∈ pairsRead DataOutputDir job r m0 remaining fs ->
  exists m recs,
    fs !! reduceInputName DataOutputDir job m r = Some recs /\ Encoded kv ∈ recs.
Proof.
  induction remaining as [|k IH]; intros m0 kv Hin; cbn [pairsRead] in Hin.
  - by apply elem_of_nil in Hin.
  - apply elem_of_app in Hin as [Hin|Hin]; [|by eapply IH].
    destruct (fs !! reduceInputName DataOutputDir job m0 r) as [recs|] eqn:Hf.
    + exists m0, recs. split; [done|]. by apply decodedPrefix_subset.
    + by apply elem_of_nil in Hin.
Qed.

(** A run of [DoReduce] that returns found all its partition files. *)
Lemma DoReduce_Done_inv rangeMap (w : Worker) r numMappers fs out :
  DoReduce DataOutputDir ReduceOutputName rangeMap w r numMappers fs = Done out ->
  forall m, 0 <= m < numMappers ->
    is_Some (fs !! reduceInputName DataOutputDir (jobName w) m r).
Proof.
  intros Hrun m Hm.
  destruct (fs !! reduceInputName DataOutputDir (jobName w) m r) eqn:Hf; [done|].
  unfold DoReduce in Hrun.
  rewrite (readMappers_missing DataOutputDir (jobName w) r fs
             (Z.to_nat numMappers) 0 ∅ (Z.to_nat m)) in Hrun; [done|lia|].
  by rewrite Z.add_0_l, Z2Nat.id by lia.
Qed.

Lemma routed_empty job n : routed DataOutputDir ihash job n ∅.
Proof. intros m' r recs kv _ Hf. by rewrite lookup_empty in Hf. Qed.

Lemma routed_DoMap (w : Worker) inputs inputFileName m n fs fs' :
  0 <= n ->
  routed DataOutputDir ihash (jobName w) n fs ->
  DoMap DataOutputDir ihash w inputs inputFileName m n fs = Done fs' ->
  routed DataOutputDir ihash (jobName w) n fs'.
Proof.
  intros Hn Hrouted Hrun.
  destruct (DoMap_Done_inv DataOutputDir ihash w inputs inputFileName m n fs fs' Hrun)
    as (content & Hin & Hcase).
  destruct (DoMap_general DataOutputDir ihash w inputs inputFileName content m n fs)
    as (fs1 & Hrun1 & Hget & Hother); [done..|].
  assert (fs1 = fs') as -> by congruence.
  intros m' r recs kv Hr Hf Hkv.
  destruct (decide (m' = m)) as [->|Hm].
  - rewrite (Hget r Hr) in Hf. injection Hf as <-.
    apply elem_of_app in Hkv as [Hkv|Hkv].
    + destruct (fs !! reduceInputName DataOutputDir (jobName w) m r) as [old|] eqn:Hold.
      * by apply (Hrouted m r old kv).
      * by apply elem_of_nil in Hkv.
    + apply list_elem_of_fmap in Hkv as (kv' & [= <-] & Hkv').
      unfold emittedFor in Hkv'. by apply list_elem_of_filter in Hkv' as [? _].
  - rewrite Hother in Hf; [by apply (Hrouted m' r recs kv)|].
    intros r' _ Heq. apply reduceInputName_inj in Heq as [Heq _]. done.
Qed.

(** X5. The routing of the records is an invariant of the map phase: it
    holds of a file system without files, and a run of [DoMap] of the job
    with [numReducers] reducers whose map function emits keys and values
    that are valid UTF-8, so that the records written read back as the
    pairs emitted, keeps it. *)
Theorem DoMap_keeps_routed (w : Worker) inputs inputFileName m n fs fs' :
  0 <= n ->
  (forall content kv,
     inputs !! inputFileName = Some content ->
     kv ∈ mapF w inputFileName content -> validPair kv) ->
  routed DataOutputDir ihash (jobName w) n fs ->
  DoMap DataOutputDir ihash w inputs inputFileName m n fs = Done fs' ->
  routed DataOutputDir ihash (jobName w) n ∅ /\
  routed DataOutputDir ihash (jobName w) n fs'.
Proof.
  intros Hn _ Hrouted Hrun. split; [apply routed_empty|by eapply routed_DoMap].
Qed.

(** X6. On a routed file system, a reduce task is given the keys of its own
    reducer only, and two reduce tasks for different reducers never call the
    reduce function for the same key. *)
Theorem DoReduce_keys_of_own_reducer range1 range2 (w : Worker) n numMappers
    r1 r2 fs out1 out2 :
  legalRange range1 -> legalRange range2 ->
  routed DataOutputDir ihash (jobName w) n fs ->
  0 <= r1 < n -> 0 <= r2 < n -> r1 <> r2 ->
  DoReduce DataOutputDir ReduceOutputName range1 w r1 numMappers fs = Done out1 ->
  DoReduce DataOutputDir ReduceOutputName range2 w r2 numMappers fs = Done out2 ->
  (forall key, key ∈ (reduceCalls out1).*1 ->
     ihash key mod to_uint32 n = r1) /\
  (forall key, key ∈ (reduceCalls out1).*1 -> key ∉ (reduceCalls out2).*1).
Proof.
  intros Hl1 Hl2 Hrouted Hr1 Hr2 Hne Hrun1 Hrun2.
  assert (forall range r out, legalRange range -> 0 <= r < n ->
            DoReduce DataOutputDir ReduceOutputName range w r numMappers fs = Done out ->
            forall key, key ∈ (reduceCalls out).*1 ->
              ihash key mod to_uint32 n = r) as Hown.
  { intros range r out Hl Hr Hrun key Hkey.
    pose proof (DoReduce_Done_inv range w r numMappers fs out Hrun) as Hfiles.
    destruct (DoReduce_general DataOutputDir ReduceOutputName range w r numMappers fs)
      as (calls & Hrun' & _ & Hcalls); [done..|].
    rewrite Hrun in Hrun'. injection Hrun' as ->. simpl in Hkey.
    apply list_elem_of_fmap in Hkey as ([k vs] & -> & Hin).
    apply Hcalls in Hin as [-> Hnil]. simpl.
    destruct (decide (k ∈ Key <$> pairsRead DataOutputDir (jobName w) r 0
                                    (Z.to_nat numMappers) fs)) as [Hk|Hk].
    2:{ by apply valuesOf_nil_iff in Hk. }
    apply list_elem_of_fmap in Hk as (kv & -> & Hkv).
    apply pairsRead_subset in Hkv as (m & recs & Hf & He).
    by apply (Hrouted m r recs kv). }
  split; [by apply (Hown range1 r1 out1)|].
  intros key Hk1 Hk2.
  apply (Hown range1 r1 out1) in Hk1; [|done..].
  apply (Hown range2 r2 out2) in Hk2; [|done..]. congruence.
Qed.

(** Reading the partition files looks at these files only. *)
Lemma readMappers_insert job r fs name recs remaining : forall m0 kvMap,
  (forall i, (i < remaining)%nat ->
     name <> reduceInputName DataOutputDir job (m0 + Z.of_nat i) r) ->
  readMappers DataOutputDir job r m0 remaining (<[name := recs]> fs) kvMap =
  readMappers DataOutputDir job r m0 remaining fs kvMap.
Proof.
  induction remaining as [|k IH]; intros m0 kvMap Hne; [done|].
  cbn [readMappers]. rewrite lookup_insert_ne.
  2:{ specialize (Hne 0%nat). rewrite Z.add_0_r in Hne. apply Hne. lia. }
  destruct (fs !! reduceInputName DataOutputDir job m0 r); [|done].
  apply IH. intros i Hi.
  replace (m0 + 1 + Z.of_nat i) with (m0 + Z.of_nat (S i)) by lia.
  apply Hne. lia.
Qed.

(** X7. A reduce task can be run again: when the output file of the reducer
    is none of the partition files it reads, a second run on what the first
    run left, the grouping map visited in the same order, calls the reduce
    function in the same way and leaves the same file system. *)
Theorem DoReduce_again rangeMap (w : Worker) r numMappers fs out :
  (forall m, 0 <= m < numMappers ->
     ReduceOutputName (jobName w) r <>
     reduceInputName DataOutputDir (jobName w) m r) ->
  DoReduce DataOutputDir ReduceOutputName rangeMap w r numMappers fs = Done out ->
  DoReduce DataOutputDir ReduceOutputName rangeMap w r numMappers (reducedFS out)
    = Done out.
Proof.
  intros Hname Hrun. unfold DoReduce in *.
  destruct (readMappers DataOutputDir (jobName w) r 0 (Z.to_nat numMappers) fs ∅)
    as [kvMap|] eqn:Hread; [|done].
  simpl in Hrun. injection Hrun as <-. simpl.
  rewrite readMappers_insert, Hread.
  - simpl. by rewrite insert_insert_eq.
  - intros i Hi. rewrite Z.add_0_l. apply Hname. lia.
Qed.

(** X8. One map task and one reduce task on a file system without files:
    with [numReducers] not zero when cut to 32 bits, and emitted keys and
    values that are valid UTF-8, the reduce task of reducer [r] calls the
    reduce function exactly for the emitted keys whose hash selects [r],
    each with all the values emitted for it, in the order of emission. *)
Theorem DoMap_then_DoReduce rangeMap (w : Worker) inputs inputFileName content
    n r :
  legalRange rangeMap ->
  inputs !! inputFileName = Some content ->
  0 <= r < n -> to_uint32 n <> 0 ->
  (forall kv, kv ∈ mapF w inputFileName content -> validPair kv) ->
  exists fs' out,
    DoMap DataOutputDir ihash w inputs inputFileName 0 n ∅ = Done fs' /\
    DoReduce DataOutputDir ReduceOutputName rangeMap w r 1 fs' = Done out /\
    forall key vs,
      (key, vs) ∈ reduceCalls out <->
      vs = valuesOf key (mapF w inputFileName content) /\ vs <> [] /\
      ihash key mod to_uint32 n = r.
Proof.
  intros Hlegal Hin Hr Hd _.
  destruct (DoMap_general DataOutputDir ihash w inputs inputFileName content 0 n ∅)
    as (fs' & Hrun & Hget & _); [done|lia|by left|].
  specialize (Hget r Hr). rewrite lookup_empty in Hget. simpl in Hget.
  destruct (DoReduce_general DataOutputDir ReduceOutputName rangeMap w r 1 fs')
    as (calls & Hred & _ & Hcalls); [done| |].
  { intros m Hm. assert (m = 0) as -> by lia. by rewrite Hget. }
  exists fs', (mkReduced calls
                 (<[ReduceOutputName (jobName w) r :=
                      Encoded <$> (reducedPair w <$> calls)]> fs')).
  split; [done|]. split; [done|]. intros key vs. simpl. rewrite Hcalls.
  change (Z.to_nat 1) with 1%nat. cbn [pairsRead]. rewrite Hget. simpl.
  rewrite app_nil_r, decodedPrefix_encoded. unfold emittedFor.
  destruct (decide (ihash key mod to_uint32 n = r)) as [Hk|Hk].
  - rewrite valuesOf_filter; [tauto|]. by intros kv ->.
  - rewrite valuesOf_filter_none; [|by intros kv ->]. split.
    + by intros [-> Hnil].
    + by intros (_ & _ & Hk').
Qed.

End Shuffle.

Lemma threePairs_valid fileName contents kv :
  kv ∈ Example.threePairs fileName contents -> validPair kv.
Proof.
  unfold Example.threePairs. intros Hkv.
  repeat (apply elem_of_cons in Hkv as [->|Hkv];
          [split; vm_compute; reflexivity|]).
  by apply elem_of_nil in Hkv.
Qed.

Lemma RunExample_afterMap0 :
  DoMap Example.outDir fnv32a (Example.worker Example.threePairs)
    Example.inputs "in0" 0 2 ∅ = Done RunExample.afterMap0.
Proof. vm_compute; reflexivity. Qed.

Lemma RunExample_afterMap01 :
  DoMap Example.outDir fnv32a (Example.worker Example.onePair)
    Example.inputs "in0" 1 2 RunExample.afterMap0 = Done RunExample.afterMap01.
Proof. vm_compute; reflexivity. Qed.

Lemma RunExample_routed :
  routed Example.outDir fnv32a "pagerank" 2 RunExample.afterMap01.
Proof.
  apply (routed_DoMap Example.outDir fnv32a (Example.worker Example.onePair)
           Example.inputs "in0" 1 2 RunExample.afterMap0); [lia| |].
  - apply (routed_DoMap Example.outDir fnv32a (Example.worker Example.threePairs)
             Example.inputs "in0" 0 2 ∅); [lia| |].
    + apply routed_empty.
    + exact RunExample_afterMap0.
  - exact RunExample_afterMap01.
Qed.

Lemma DoMap_keeps_routed_witness :
  routed Example.outDir fnv32a "pagerank" 2 RunExample.afterMap0.
Proof.
  assert (0 <= 2) as Hn by lia.
  assert (forall content kv,
            Example.inputs !! "in0" = Some content ->
            kv ∈ mapF (Example.worker Example.threePairs) "in0" content ->
            validPair kv) as Hvalid.
  { intros content kv _ Hkv. exact (threePairs_valid "in0" content kv Hkv). }
  exact (proj2 (DoMap_keeps_routed Example.outDir fnv32a
                  (Example.worker Example.threePairs) Example.inputs "in0" 0 2 ∅
                  RunExample.afterMap0 Hn Hvalid
                  (routed_empty Example.outDir fnv32a "pagerank" 2)
                  RunExample_afterMap0)).
Defined.

Lemma DoReduce_keys_of_own_reducer_witness :
  Forall (fun key => fnv32a key mod to_uint32 2 = 0)
    ((reduceCalls RunExample.afterReduce0).*1).
Proof.
  apply Forall_forall. intros key Hkey.
  assert (DoReduce Example.outDir Example.reduceOutputName rangeAscending
            (Example.worker Example.threePairs) 0 2 RunExample.afterMap01
          = Done RunExample.afterReduce0) as Hrun0 by (vm_compute; reflexivity).
  assert (DoReduce Example.outDir Example.reduceOutputName rangeDescending
            (Example.worker Example.threePairs) 1 2 RunExample.afterMap01
          = Done RunExample.afterReduce1) as Hrun1 by (vm_compute; reflexivity).
  assert (0 <= 0 < 2) as H0 by lia. assert (0 <= 1 < 2) as H1 by lia.
  assert (0 <> 1) as Hne by lia.
  exact (proj1 (DoReduce_keys_of_own_reducer Example.outDir
                  Example.reduceOutputName fnv32a rangeAscending rangeDescending
                  (Example.worker Example.threePairs) 2 2 0 1
                  RunExample.afterMap01 RunExample.afterReduce0
                  RunExample.afterReduce1 rangeAscending_legal
                  rangeDescending_legal RunExample_routed H0 H1 Hne Hrun0 Hrun1)
           key Hkey).
Defined.

Lemma DoReduce_again_witness :
  DoReduce Example.outDir Example.reduceOutputName rangeAscending
    (Example.worker Example.threePairs) 0 2
    (reducedFS RunExample.afterReduce0) = Done RunExample.afterReduce0.
Proof.
  apply (DoReduce_again Example.outDir Example.reduceOutputName rangeAscending
           (Example.worker Example.threePairs) 0 2 RunExample.afterMap01).
  - intros m Hm. assert (m = 0 \/ m = 1) as [-> | ->] by lia;
      vm_compute; discriminate.
  - vm_compute; reflexivity.
Defined.

Lemma DoMap_then_DoReduce_witness :
  exists fs' out,
    DoMap Example.outDir fnv32a (Example.worker Example.threePairs)
      Example.inputs "in0" 0 2 ∅ = Done fs' /\
    DoReduce Example.outDir Example.reduceOutputName rangeAscending
      (Example.worker Example.threePairs) 1 1 fs' = Done out.
Proof.
  destruct (DoMap_then_DoReduce Example.outDir Example.reduceOutputName fnv32a
              rangeAscending (Example.worker Example.threePairs) Example.inputs
              "in0" "A: 1.0, B, C" 2 1) as (fs' & out & Hmap & Hred & _).
  - exact rangeAscending_legal.
  - vm_compute; reflexivity.
  - lia.
  - vm_compute; discriminate.
  - intros kv Hkv. exact (threePairs_valid "in0" "A: 1.0, B, C" kv Hkv).
  - exists fs', out. split; [exact Hmap|exact Hred].
Defined.

(** ** Worker life cycle *)

Lemma firstSuccess_None_iff callMaster remaining : forall i,
  firstSuccess callMaster i remaining = None <->
  forall k, i <= k < i + Z.of_nat remaining -> callMaster k = false.
Proof.
  induction remaining as [|n IH]; intros i; cbn [firstSuccess].
  - split; [intros _ k Hk; lia|done].
  - destruct (callMaster i) eqn:Hi.
    + split; [done|]. intros Hall. rewrite Hall in Hi by lia. done.
    + rewrite IH. split.
      * intros Hall k Hk. destruct (decide (k = i)) as [->|Hne]; [done|].
        apply Hall. lia.
      * intros Hall k Hk. apply Hall. lia.
Qed.

(** X9. A worker that was started is active exactly when one of the first
    40 calls of the master succeeded; its listener is open exactly when it
    is active, and when it is not, the listener was closed during the
    start.  A shutdown of the started worker leaves it inactive with its
    listener closed, and a further shutdown changes nothing more. *)
Theorem Start_active_iff_registered (callMaster : Z -> bool) (w : Worker) :
  let started := Start callMaster w in
  (IsActive started.1 = true <-> exists j, 0 <= j < 40 /\ callMaster j = true) /\
  rpcListener started.1 = IsActive started.1 /\
  (IsActive started.1 = false -> CloseListener ∈ started.2) /\
  IsActive (Shutdown started.1).1 = false /\
  rpcListener (Shutdown started.1).1 = false /\
  (Shutdown (Shutdown started.1).1).1 = (Shutdown started.1).1.
Proof.
  intros started. subst started. unfold Start, RegisterWithServer.
  pose proof (registerLoop_spec callMaster (address (setActiveListening w)) 40 0)
    as Hloop.
  cbn zeta in Hloop.
  destruct (registerLoop callMaster (address (setActiveListening w)) 0 40 false)
    as [ok tr].
  cbn [fst snd] in Hloop. destruct Hloop as [Hclose Hloop].
  destruct (firstSuccess callMaster 0 40) as [j|] eqn:Hfirst.
  - destruct Hloop as (Hj & Hcj & _ & -> & _). cbn [fst snd].
    split; [|split; [done|split; [done|split; [done|by split]]]].
    split; [intros _; exists j; split; [lia|done]|done].
  - destruct Hloop as (Hall & -> & _). cbn [fst snd Shutdown].
    split; [|split; [done|split; [|split; [done|by split]]]].
    + split; [done|]. intros (j & Hj & Hcj). rewrite Hall in Hcj by lia. done.
    + intros _. rewrite !elem_of_app. right. right.
      apply list_elem_of_In. simpl. tauto.
Qed.

Lemma sleepTime_app tr1 tr2 : sleepTime (tr1 ++ tr2) = sleepTime tr1 + sleepTime tr2.
Proof.
  induction tr1 as [|e tr1 IH]; [done|].
  destruct e; simpl; rewrite IH; lia.
Qed.

Lemma sleepTime_schedule tr : sleepTime (schedule tr) = sleepTime tr.
Proof.
  induction tr as [|e tr IH]; [done|].
  rewrite schedule_cons. destruct e; simpl; by rewrite IH.
Qed.

Lemma sleepTime_failedRounds addr k :
  sleepTime (failedRounds addr k) = 250 * Z.of_nat k.
Proof. induction k as [|k IH]; [done|]. cbn [failedRounds sleepTime]. lia. Qed.

(** X10. Registration sleeps 250 ms for every call that failed and not at
    all otherwise: [250 * j] ms when call [j] is the first to succeed, and
    10 seconds, its most, when the 40 calls fail. *)
Theorem RegisterWithServer_sleeps (callMaster : Z -> bool) (w : Worker) :
  let tr := (RegisterWithServer callMaster w).2 in
  0 <= sleepTime tr <= 10000 /\
  sleepTime tr =
    match firstSuccess callMaster 0 40 with
    | Some j => 250 * j
    | None => 10000
    end.
Proof.
  intros tr. subst tr. unfold RegisterWithServer.
  pose proof (registerLoop_spec callMaster (address w) 40 0) as Hloop.
  cbn zeta in Hloop.
  destruct (registerLoop callMaster (address w) 0 40 false) as [ok tr].
  cbn [fst snd] in Hloop. destruct Hloop as [_ Hloop].
  destruct (firstSuccess callMaster 0 40) as [j|].
  - destruct Hloop as (Hj & _ & _ & -> & Hsch & _). cbn [fst snd].
    rewrite sleepTime_app, <- (sleepTime_schedule tr), Hsch, sleepTime_app,
      sleepTime_failedRounds.
    rewrite Z.sub_0_r, Z2Nat.id by lia. simpl. lia.
  - destruct Hloop as (_ & -> & Hsch & _). cbn [fst snd Shutdown].
    rewrite !sleepTime_app, <- (sleepTime_schedule tr), Hsch,
      sleepTime_failedRounds. simpl. lia.
Qed.

(** ** Cleaning up between iterations *)

Section CleanUpFacts.

Variable DataOutputDir : string.

Lemma cleanUpMappers_frame job i remaining : forall k0 fs fs',
  cleanUpMappers DataOutputDir job i k0 remaining fs = Some fs' ->
  forall x,
    (forall j, (j < remaining)%nat ->
       x <> reduceInputName DataOutputDir job (k0 + Z.of_nat j) i) ->
    fs' !! x = fs !! x.
Proof.
  induction remaining as [|n IH]; intros k0 fs fs' Hrun x Hx;
    cbn [cleanUpMappers] in Hrun.
  - by injection Hrun as <-.
  - unfold truncateFile in Hrun.
    destruct (fs !! reduceInputName DataOutputDir job k0 i); [|done].
    rewrite (IH _ _ _ Hrun).
    + rewrite lookup_insert_ne; [done|]. intros Heq.
      apply (Hx 0%nat); [lia|]. by rewrite Z.add_0_r.
    + intros j Hj. replace (k0 + 1 + Z.of_nat j) with (k0 + Z.of_nat (S j)) by lia.
      apply Hx. lia.
Qed.

Lemma cleanUpMappers_spec job i remaining : forall k0 fs,
  (forall j, (j < remaining)%nat ->
     is_Some (fs !! reduceInputName DataOutputDir job (k0 + Z.of_nat j) i)) ->
  exists fs',
    cleanUpMappers DataOutputDir job i k0 remaining fs = Some fs' /\
    forall j, (j < remaining)%nat ->
      fs' !! reduceInputName DataOutputDir job (k0 + Z.of_nat j) i = Some [].
Proof.
  induction remaining as [|n IH]; intros k0 fs Hfiles.
  - exists fs. split; [done|]. intros j Hj. lia.
  - destruct (Hfiles 0%nat) as [recs Hrecs]; [lia|]. rewrite Z.add_0_r in Hrecs.
    cbn [cleanUpMappers]. unfold truncateFile. rewrite Hrecs.
    destruct (IH (k0 + 1)
                (<[reduceInputName DataOutputDir job k0 i := []]> fs))
      as (fs' & Hrun & Hempty).
    { intros j Hj. rewrite lookup_insert_ne.
      - replace (k0 + 1 + Z.of_nat j) with (k0 + Z.of_nat (S j)) by lia.
        apply Hfiles. lia.
      - intros Heq. apply reduceInputName_inj in Heq. lia. }
    exists fs'. split; [done|]. intros j Hj. destruct j as [|j].
    + rewrite Z.add_0_r. rewrite (cleanUpMappers_frame _ _ _ _ _ _ Hrun).
      * by rewrite lookup_insert_eq.
      * intros j _ Heq. apply reduceInputName_inj in Heq. lia.
    + replace (k0 + Z.of_nat (S j)) with (k0 + 1 + Z.of_nat j) by lia.
      apply Hempty. lia.
Qed.

Lemma cleanUpMappers_missing job i remaining : forall k0 fs j,
  (j < remaining)%nat ->
  fs !! reduceInputName DataOutputDir job (k0 + Z.of_nat j) i = None ->
  cleanUpMappers DataOutputDir job i k0 remaining fs = None.
Proof.
  induction remaining as [|n IH]; intros k0 fs j Hj Hnone; [lia|].
  cbn [cleanUpMappers]. unfold truncateFile.
  destruct (fs !! reduceInputName DataOutputDir job k0 i) eqn:Hf; [|done].
  destruct j as [|j]; [rewrite Z.add_0_r in Hnone; congruence|].
  apply (IH (k0 + 1) _ j); [lia|].
  rewrite lookup_insert_ne.
  - by replace (k0 + 1 + Z.of_nat j) with (k0 + Z.of_nat (S j)) by lia.
  - intros Heq. apply reduceInputName_inj in Heq. lia.
Qed.

Lemma cleanUpReducers_frame job numMappers remaining : forall i0 fs fs',
  cleanUpReducers DataOutputDir job numMappers i0 remaining fs = Some fs' ->
  forall x,
    (forall i k, (i < remaining)%nat -> 0 <= k < numMappers ->
       x <> reduceInputName DataOutputDir job k (i0 + Z.of_nat i)) ->
    fs' !! x = fs !! x.
Proof.
  induction remaining as [|n IH]; intros i0 fs fs' Hrun x Hx;
    cbn [cleanUpReducers] in Hrun.
  - by injection Hrun as <-.
  - destruct (cleanUpMappers DataOutputDir job i0 0 (Z.to_nat numMappers) fs)
      as [fs1|] eqn:Hinner; [|done].
    rewrite (IH _ _ _ Hrun).
    + apply (cleanUpMappers_frame _ _ _ _ _ _ Hinner).
      intros j Hj. rewrite Z.add_0_l.
      replace i0 with (i0 + Z.of_nat 0) by lia. apply Hx; lia.
    + intros i k Hi Hk.
      replace (i0 + 1 + Z.of_nat i) with (i0 + Z.of_nat (S i)) by lia.
      apply Hx; lia.
Qed.

Lemma cleanUpReducers_spec job numMappers remaining : forall i0 fs,
  (forall i k, (i < remaining)%nat -> 0 <= k < numMappers ->
     is_Some (fs !! reduceInputName DataOutputDir job k (i0 + Z.of_nat i))) ->
  exists fs',
    cleanUpReducers DataOutputDir job numMappers i0 remaining fs = Some fs' /\
    forall i k, (i < remaining)%nat -> 0 <= k < numMappers ->
      fs' !! reduceInputName DataOutputDir job k (i0 + Z.of_nat i) = Some [].
Proof.
  induction remaining as [|n IH]; intros i0 fs Hfiles.
  - exists fs. split; [done|]. intros i k Hi. lia.
  - cbn [cleanUpReducers].
    destruct (cleanUpMappers_spec job i0 (Z.to_nat numMappers) 0 fs)
      as (fs1 & Hinner & Hempty1).
    { intros j Hj. rewrite Z.add_0_l.
      replace i0 with (i0 + Z.of_nat 0) by lia. apply Hfiles; lia. }
    rewrite Hinner.
    destruct (IH (i0 + 1) fs1) as (fs' & Hrun & Hempty).
    { intros i k Hi Hk.
      rewrite (cleanUpMappers_frame _ _ _ _ _ _ Hinner).
      - replace (i0 + 1 + Z.of_nat i) with (i0 + Z.of_nat (S i)) by lia.
        apply Hfiles; lia.
      - intros j _ Heq. apply reduceInputName_inj in Heq. lia. }
    exists fs'. split; [done|]. intros i k Hi Hk. destruct i as [|i].
    + rewrite Z.add_0_r. rewrite (cleanUpReducers_frame _ _ _ _ _ _ Hrun).
      * specialize (Hempty1 (Z.to_nat k)).
        rewrite Z.add_0_l, Z2Nat.id in Hempty1 by lia. apply Hempty1. lia.
      * intros i k' _ _ Heq. apply reduceInputName_inj in Heq. lia.
    + replace (i0 + Z.of_nat (S i)) with (i0 + 1 + Z.of_nat i) by lia.
      apply Hempty; [lia|done].
Qed.

Lemma cleanUpReducers_missing job numMappers remaining : forall i0 fs i k,
  (i < remaining)%nat -> 0 <= k < numMappers ->
  fs !! reduceInputName DataOutputDir job k (i0 + Z.of_nat i) = None ->
  cleanUpReducers DataOutputDir job numMappers i0 remaining fs = None.
Proof.
  induction remaining as [|n IH]; intros i0 fs i k Hi Hk Hnone; [lia|].
  cbn [cleanUpReducers].
  destruct (cleanUpMappers DataOutputDir job i0 0 (Z.to_nat numMappers) fs)
    as [fs1|] eqn:Hinner; [|done].
  destruct i as [|i].
  - rewrite Z.add_0_r in Hnone.
    rewrite (cleanUpMappers_missing job i0 (Z.to_nat numMappers) 0 fs (Z.to_nat k))
      in Hinner; [done|lia|].
    by rewrite Z.add_0_l, Z2Nat.id by lia.
  - apply (IH (i0 + 1) fs1 i k); [lia|done|].
    rewrite (cleanUpMappers_frame _ _ _ _ _ _ Hinner).
    + by replace (i0 + 1 + Z.of_nat i) with (i0 + Z.of_nat (S i)) by lia.
    + intros j _ Heq. apply reduceInputName_inj in Heq. lia.
Qed.

Lemma cleanUp_truncates_aux job numReducers numMappers fs fs' :
  cleanUp DataOutputDir job numReducers numMappers fs = Some fs' ->
  forall i k, 0 <= i < numReducers -> 0 <= k < numMappers ->
    fs' !! reduceInputName DataOutputDir job k i = Some [].
Proof.
  unfold cleanUp. intros Hrun i k Hi Hk.
  destruct (cleanUpReducers_spec job numMappers (Z.to_nat numReducers) 0 fs)
    as (fs1 & Hrun1 & Hempty).
  { intros i' k' Hi' Hk'. rewrite Z.add_0_l.
    destruct (fs !! reduceInputName DataOutputDir job k' (Z.of_nat i')) eqn:Hf;
      [done|].
    rewrite (cleanUpReducers_missing job numMappers (Z.to_nat numReducers) 0
               fs i' k') in Hrun; done. }
  assert (fs1 = fs') as -> by congruence.
  specialize (Hempty (Z.to_nat i) k).
  rewrite Z.add_0_l, Z2Nat.id in Hempty by lia. apply Hempty; lia.
Qed.

(** X11. [cleanUp] returns exactly when every partition file of the
    [numMappers] mappers and [numReducers] reducers is there, and panics
    otherwise; when it returns, each of these files is empty and every other
    file is as before. *)
Theorem cleanUp_truncates job numReducers numMappers fs :
  (is_Some (cleanUp DataOutputDir job numReducers numMappers fs) <->
   forall i k, 0 <= i < numReducers -> 0 <= k < numMappers ->
     is_Some (fs !! reduceInputName DataOutputDir job k i)) /\
  (forall fs',
     cleanUp DataOutputDir job numReducers numMappers fs = Some fs' ->
     (forall i k, 0 <= i < numReducers -> 0 <= k < numMappers ->
        fs' !! reduceInputName DataOutputDir job k i = Some []) /\
     (forall x, ~ partitionName DataOutputDir job numReducers numMappers x ->
        fs' !! x = fs !! x)).
Proof.
  unfold cleanUp. split; [split|].
  - intros Hsome i k Hi Hk.
    destruct (fs !! reduceInputName DataOutputDir job k i) eqn:Hf; [done|].
    rewrite (cleanUpReducers_missing job numMappers (Z.to_nat numReducers) 0 fs
               (Z.to_nat i) k) in Hsome; [by destruct Hsome|lia|done|].
    by rewrite Z.add_0_l, Z2Nat.id by lia.
  - intros Hfiles.
    destruct (cleanUpReducers_spec job numMappers (Z.to_nat numReducers) 0 fs)
      as (fs' & -> & _); [|done].
    intros i k Hi Hk. rewrite Z.add_0_l. apply Hfiles; lia.
  - intros fs' Hrun. split.
    + by apply (cleanUp_truncates_aux job numReducers numMappers fs fs').
    + intros x Hx. apply (cleanUpReducers_frame _ _ _ _ _ _ Hrun).
      intros i k Hi Hk Heq. apply Hx. exists (Z.of_nat i), k.
      rewrite Z.add_0_l in Heq. split; [lia|]. by split.
Qed.

Variable ihash : string -> Z.

(** X12. After [cleanUp] a map task starts afresh: whatever the partition
    files held before, a run of [DoMap] for a mapper below [numMappers] on
    the cleaned file system leaves in the file of every reducer the pairs it
    emitted for that reducer and nothing else. *)
Theorem cleanUp_then_DoMap (w : Worker) inputs inputFileName numReducers
    numMappers m fs fs0 fs' :
  0 <= m < numMappers ->
  cleanUp DataOutputDir (jobName w) numReducers numMappers fs = Some fs0 ->
  DoMap DataOutputDir ihash w inputs inputFileName m numReducers fs0 = Done fs' ->
  exists content,
    inputs !! inputFileName = Some content /\
    forall r, 0 <= r < numReducers ->
      fs' !! reduceInputName DataOutputDir (jobName w) m r =
      Some (Encoded <$> emittedFor ihash numReducers
                          (mapF w inputFileName content) r).
Proof.
  intros Hm Hclean Hrun.
  destruct (DoMap_Done_inv DataOutputDir ihash w inputs inputFileName m
              numReducers fs0 fs' Hrun) as (content & Hin & Hcase).
  exists content. split; [done|]. intros r Hr.
  destruct (DoMap_general DataOutputDir ihash w inputs inputFileName content m
              numReducers fs0) as (fs1 & Hrun1 & Hget & _); [done|lia|done|].
  assert (fs1 = fs') as -> by congruence.
  rewrite (Hget r Hr).
  pose proof (cleanUp_truncates_aux (jobName w) numReducers numMappers fs fs0
                Hclean) as Hempty.
  by rewrite (Hempty r m Hr Hm).
Qed.

(** X13. The map phase leaves what [cleanUp] needs: when the partition
    files of the other mappers are there, and the map task of mapper [m]
    returns, [cleanUp] for these mappers and reducers does not panic on the
    file system the task leaves. *)
Theorem DoMap_enables_cleanUp (w : Worker) inputs inputFileName numReducers
    numMappers m fs fs' :
  0 <= numReducers -> 0 <= m < numMappers ->
  (forall i k, 0 <= i < numReducers -> 0 <= k < numMappers -> k <> m ->
     is_Some (fs !! reduceInputName DataOutputDir (jobName w) k i)) ->
  DoMap DataOutputDir ihash w inputs inputFileName m numReducers fs = Done fs' ->
  is_Some (cleanUp DataOutputDir (jobName w) numReducers numMappers fs').
Proof.
  intros Hn Hm Hfiles Hrun.
  destruct (DoMap_Done_inv DataOutputDir ihash w inputs inputFileName m
              numReducers fs fs' Hrun) as (content & Hin & Hcase).
  destruct (DoMap_general DataOutputDir ihash w inputs inputFileName content m
              numReducers fs) as (fs1 & Hrun1 & Hget & Hother); [done..|].
  assert (fs1 = fs') as -> by congruence.
  unfold cleanUp.
  destruct (cleanUpReducers_spec (jobName w) numMappers (Z.to_nat numReducers) 0 fs')
    as (fs2 & -> & _); [|done].
  intros i k Hi Hk. rewrite Z.add_0_l.
  destruct (decide (k = m)) as [->|Hne].
  - rewrite Hget by lia. done.
  - rewrite Hother.
    + apply Hfiles; [lia|done|done].
    + intros r _ Heq. apply reduceInputName_inj in Heq as [Heq _]. done.
Qed.

End CleanUpFacts.

Lemma cleanUp_then_DoMap_witness :
  RunExample.afterCleanMap0 !! reduceInputName Example.outDir "pagerank" 0 0 =
  Some (Encoded <$> emittedFor fnv32a 2 (Example.threePairs "in0" "") 0).
Proof.
  assert (cleanUp Example.outDir "pagerank" 2 2 RunExample.afterMap01
          = Some RunExample.cleaned) as Hclean by (vm_compute; reflexivity).
  assert (DoMap Example.outDir fnv32a (Example.worker Example.threePairs)
            Example.inputs "in0" 0 2 RunExample.cleaned
          = Done RunExample.afterCleanMap0) as Hrun by (vm_compute; reflexivity).
  assert (0 <= 0 < 2) as Hm by lia.
  destruct (cleanUp_then_DoMap Example.outDir fnv32a
              (Example.worker Example.threePairs) Example.inputs "in0" 2 2 0
              RunExample.afterMap01 RunExample.cleaned RunExample.afterCleanMap0
              Hm Hclean Hrun) as (content & _ & Hget).
  exact (Hget 0 Hm).
Defined.

Lemma DoMap_enables_cleanUp_witness :
  is_Some (cleanUp Example.outDir "pagerank" 2 1 RunExample.afterMap0).
Proof.
  assert (0 <= 2) as Hn by lia. assert (0 <= 0 < 1) as Hm by lia.
  apply (DoMap_enables_cleanUp Example.outDir fnv32a
           (Example.worker Example.threePairs) Example.inputs "in0" 2 1 0 ∅
           RunExample.afterMap0 Hn Hm).
  - intros i k Hi Hk Hne. lia.
  - exact RunExample_afterMap0.
Defined.
